(** * highrise: the bot SDK's connection facade, request correlator and codec

    A shallow embedding of [src/highrise/__init__.py].  The module keeps one
    process-wide id counter ([Highrise._req_id = count()]) and one process-wide
    registry ([Highrise._req_id_registry]) that maps a correlation id to an
    [asyncio.Queue] of capacity one.  Queues are Python objects: the registry
    and the coroutine that created a queue hold the same reference, so the
    model has a heap of queues addressed by location and the registry stores
    locations. *)

From stdpp Require Import gmap strings list fin_maps pretty sorting.

Open Scope string_scope.
Open Scope list_scope.

(** ** JSON documents

    Every frame on the socket is a JSON document: [ws.send_json(d)] sends
    [json.dumps(d)] and [converter.dumps(v, U)] is [json.dumps] of the
    unstructured value.  A frame is modelled by the document itself. *)

(** A Python [float], kept as its IEEE-754 binary64 bit pattern.  The code
    never computes with a float, it only forwards it. *)
Definition float := Z.

#[warnings="-register-all"]
Inductive json : Type :=
| JNull
| JBool (b : bool)
| JNum (x : float)
| JStr (s : string)
| JArr (elems : list json)
| JObj (members : list (string * json)).

(** Lookup of a key in the member list of a JSON object (a Python [dict]
    with string keys, in insertion order). *)
Fixpoint dict_get (k : string) (d : list (string * json)) : option json :=
  match d with
  | [] => None
  | (k', v) :: d' => if decide (k' = k) then Some v else dict_get k d'
  end.

(** [d[k] = v]: replaces the value of an existing key in place, appends a new
    key at the end. *)
Fixpoint dict_set (k : string) (v : json) (d : list (string * json))
  : list (string * json) :=
  match d with
  | [] => [(k, v)]
  | (k', v') :: d' =>
      if decide (k' = k) then (k, v) :: d' else (k', v') :: dict_set k v d'
  end.

(** [d.pop(k)] without the returned value: the dict without key [k]. *)
Fixpoint dict_del (k : string) (d : list (string * json))
  : list (string * json) :=
  match d with
  | [] => []
  | (k', v) :: d' =>
      if decide (k' = k) then dict_del k d' else (k', v) :: dict_del k d'
  end.

Definition json_of_option_str (o : option string) : json :=
  match o with
  | Some s => JStr s
  | None => JNull
  end.

(** ** Model classes

    The classes imported from [.models] (lines 12-29) and the response classes
    nested in the request classes (lines 186-188). *)

Inductive cls : Type :=
| ChannelEvent
| ChannelRequest
| ChatEvent
| EmoteEvent
| Error
| GetRoomUsersRequest
| GetRoomUsersResponse
| IndicatorRequest
| Item
| Position
| SessionMetadata
| TeleportRequest
| TipReactionEvent
| User
| UserJoinedEvent
| UserLeftEvent
| IndicatorResponse
| ChannelResponse
| TeleportResponse.

Global Instance cls_eq_dec : EqDecision cls.
Proof. solve_decision. Defined.

(** [cl.__name__] *)
Definition cls_name (c : cls) : string :=
  match c with
  | ChannelEvent => "ChannelEvent"
  | ChannelRequest => "ChannelRequest"
  | ChatEvent => "ChatEvent"
  | EmoteEvent => "EmoteEvent"
  | Error => "Error"
  | GetRoomUsersRequest => "GetRoomUsersRequest"
  | GetRoomUsersResponse => "GetRoomUsersResponse"
  | IndicatorRequest => "IndicatorRequest"
  | Item => "Item"
  | Position => "Position"
  | SessionMetadata => "SessionMetadata"
  | TeleportRequest => "TeleportRequest"
  | TipReactionEvent => "TipReactionEvent"
  | User => "User"
  | UserJoinedEvent => "UserJoinedEvent"
  | UserLeftEvent => "UserLeftEvent"
  | IndicatorResponse => "IndicatorResponse"
  | ChannelResponse => "ChannelResponse"
  | TeleportResponse => "TeleportResponse"
  end.

(** The unions of lines 177-197, in the order written. *)
Definition Incoming : list cls :=
  [ Error; GetRoomUsersResponse; ChatEvent; EmoteEvent; UserJoinedEvent;
    UserLeftEvent; ChannelEvent; TipReactionEvent; IndicatorResponse;
    ChannelResponse; TeleportResponse ].

Definition Outgoing : list cls :=
  [ ChatEvent; ChannelEvent; GetRoomUsersRequest; IndicatorRequest;
    ChannelRequest; TeleportRequest ].

(** An instance of an attrs class: its class and its attributes, each held
    in unstructured (JSON) form, in declaration order. *)
Record AttrsInstance : Type := mkInst {
  inst_cls : cls;
  inst_attrs : list (string * json)
}.

(** [req.rid = rid]: the instance with its [rid] attribute set to [rid];
    [None] stands for the [AttributeError] that the assignment raises when
    the class of [req] has no attribute [rid]. *)
Definition set_rid (req : AttrsInstance) (rid : string)
  : option AttrsInstance :=
  match dict_get "rid" (inst_attrs req) with
  | Some _ =>
      Some (mkInst (inst_cls req) (dict_set "rid" (JStr rid) (inst_attrs req)))
  | None => None
  end.

(** [m.rid], [None] when the attribute is missing or null. *)
Definition get_rid (m : AttrsInstance) : option string :=
  match dict_get "rid" (inst_attrs m) with
  | Some (JStr s) => Some s
  | _ => None
  end.

(** The instance has an attribute [rid], as the protocol [_ReqWithId]
    (lines 154-159) asks of the argument of [do_req_resp]. *)
Definition has_rid (req : AttrsInstance) : Prop :=
  is_Some (dict_get "rid" (inst_attrs req)).

(** Modelled from the spec: [models.py] is not part of the sources, so the
    attribute lists of the request classes are missing.  The spec gives the
    requests that are paired with a response an optional correlation id,
    absent until the request is sent; the other attributes are the positional
    arguments of the call sites at lines 114, 119, 133 and 139, named after
    the facade's parameters. *)
Definition new_IndicatorRequest (icon : option string) : AttrsInstance :=
  mkInst IndicatorRequest [("icon", json_of_option_str icon); ("rid", JNull)].

Definition new_ChannelRequest (message : string) (tags : gset string)
  : AttrsInstance :=
  mkInst ChannelRequest
    [("message", JStr message); ("tags", JArr (JStr <$> elements tags));
     ("rid", JNull)].

Definition new_TeleportRequest (user_id : string) (dest : AttrsInstance)
  : AttrsInstance :=
  mkInst TeleportRequest
    [("user_id", JStr user_id); ("destination", JObj (inst_attrs dest));
     ("rid", JNull)].

Definition new_GetRoomUsersRequest (rid : option string) : AttrsInstance :=
  mkInst GetRoomUsersRequest [("rid", json_of_option_str rid)].

(** ** The wire codec

    Modelled from the spec: [_unions.configure_tagged_union] and the cattrs
    converter it configures are not part of the sources.  The spec has the
    encoder write the discriminant tag and all fields of the variant, and the
    decoder read the tag first, select the variant of the union with that tag
    and hand the fields to it; an unknown tag is a decode error.  The tag
    member is ["_type"] and a variant's tag is its class name, as in the
    frames that the facade writes by hand (lines 96-127). *)
Definition tag_name : string := "_type".

Inductive DecodeError : Type :=
| NotAnObject
| MissingTag
| UnknownTag (tag : string).

Definition unstructure (v : AttrsInstance) : json :=
  JObj ((tag_name, JStr (cls_name (inst_cls v))) :: inst_attrs v).

Fixpoint cls_of_tag (U : list cls) (tag : string) : option cls :=
  match U with
  | [] => None
  | c :: U' => if decide (cls_name c = tag) then Some c else cls_of_tag U' tag
  end.

Definition structure (U : list cls) (frame : json)
  : DecodeError + AttrsInstance :=
  match frame with
  | JObj members =>
      match dict_get tag_name members with
      | Some (JStr tag) =>
          match cls_of_tag U tag with
          | Some c => inr (mkInst c (dict_del tag_name members))
          | None => inl (UnknownTag tag)
          end
      | _ => inl MissingTag
      end
  | _ => inl NotAnObject
  end.

(** [converter.dumps(v, U)]: [None] stands for the exception raised when the
    class of [v] is not a member of the union [U]. *)
Definition dumps (v : AttrsInstance) (U : list cls) : option json :=
  if decide (inst_cls v ∈ U) then Some (unstructure v) else None.

(** [converter.loads(frame, U)] *)
Definition loads (frame : json) (U : list cls) : DecodeError + AttrsInstance :=
  structure U frame.

(** ** Process state *)

(** Heap locations of [Queue] objects. *)
Abbreviation loc := nat.

(** Values that calls return and that travel through a queue ([Queue[Any]]):
    [None], a decoded message, or the list of (User, Position) pairs that
    [get_room_users] is declared to return. *)
Inductive Any : Type :=
| AnyNone
| AnyMsg (m : AttrsInstance)
| AnyPairs (content : list (AttrsInstance * AttrsInstance)).

(** [asyncio.Queue]: its capacity and the items it holds, oldest first. *)
Record Queue : Type := mkQueue {
  maxsize : nat;
  items : list Any
}.

Inductive exn : Type :=
| AttributeError
| NotInUnion
| QueueFull.

(** What the module does to the counter, the registry and the socket, in
    the order in which it does it. *)
Inductive event : Type :=
| EvNext (n : N)                        (* [next(_req_id)] gave [n] *)
| EvRegister (rid : string) (q : loc)   (* [_req_id_registry[rid] = q] *)
| EvUnregister (rid : string)           (* the entry for [rid] is removed *)
| EvSend (frame : json).                (* [frame] goes out on [ws] *)

Record World : Type := mkWorld {
  _req_id : N;                          (* next value of [count()] *)
  _req_id_registry : gmap string loc;   (* [dict[str, Queue[Any]]] *)
  heap : gmap loc Queue;                (* the queue objects *)
  next_loc : loc;                       (* allocation pointer of [heap] *)
  ws : list json;                       (* frames sent, oldest first *)
  effects : list event                  (* history, oldest first *)
}.

(** The state of the module once it is imported: [count()] starts at 0 and
    the registry is the empty dict. *)
Definition initial : World := mkWorld 0 ∅ ∅ 0 [] [].

(** ** Coroutines

    A call either returns, raises, or is parked at [await q.get()] on an
    empty queue.  In this module every [q.get()] is the operand of a final
    [return await q.get()], so the rest of a parked coroutine is [Queue_get q]
    itself: it is resumed by running [Queue_get q] again. *)
Inductive outcome (A : Type) : Type :=
| Returned (a : A)
| Suspended (q : loc)
| Raised (e : exn).
Arguments Returned {A} a.
Arguments Suspended {A} q.
Arguments Raised {A} e.

Definition M (A : Type) : Type := World → outcome A * World.

Definition ret {A} (a : A) : M A := λ w, (Returned a, w).

Definition bind {A B} (m : M A) (f : A → M B) : M B := λ w,
  match m w with
  | (Returned a, w') => f a w'
  | (Suspended q, w') => (Suspended q, w')
  | (Raised e, w') => (Raised e, w')
  end.

Notation "'let*' x ':=' m 'in' k" := (bind m (λ x, k))
  (at level 10, x name, m at level 100, k at level 200).
Notation "'do' m 'in' k" := (bind m (λ _, k))
  (at level 10, m at level 100, k at level 200).

Definition raise {A} (e : exn) : M A := λ w, (Raised e, w).

(** [pass], and the implicit [return None] at the end of a body; [tt] is
    Python's [None]. *)
Definition pass : M unit := ret tt.

(** [str(n)] for a non-negative int: decimal digits, no leading zero. *)
Definition str (n : N) : string := pretty n.

(** [next(hr._req_id)] *)
Definition next_req_id : M N := λ w,
  (Returned (_req_id w),
   mkWorld (N.succ (_req_id w)) (_req_id_registry w) (heap w) (next_loc w)
           (ws w) (effects w ++ [EvNext (_req_id w)])).

(** [Queue[Any](maxsize=n)]: a new, empty queue object. *)
Definition new_Queue (n : nat) : M loc := λ w,
  (Returned (next_loc w),
   mkWorld (_req_id w) (_req_id_registry w)
           (<[next_loc w := mkQueue n []]> (heap w)) (S (next_loc w)) (ws w)
           (effects w)).

(** [hr._req_id_registry[rid] = q] *)
Definition registry_set (rid : string) (q : loc) : M unit := λ w,
  (Returned tt,
   mkWorld (_req_id w) (<[rid := q]> (_req_id_registry w)) (heap w)
           (next_loc w) (ws w) (effects w ++ [EvRegister rid q])).

(** [await ws.send_str(frame)] *)
Definition send_str (frame : json) : M unit := λ w,
  (Returned tt,
   mkWorld (_req_id w) (_req_id_registry w) (heap w) (next_loc w)
           (ws w ++ [frame]) (effects w ++ [EvSend frame])).

(** [await ws.send_json(data)]: aiohttp sends [json.dumps(data)] as a text
    frame. *)
Definition send_json (data : list (string * json)) : M unit :=
  send_str (JObj data).

(** [converter.dumps(v, U)] inside a coroutine. *)
Definition converter_dumps (v : AttrsInstance) (U : list cls) : M json :=
  match dumps v U with
  | Some frame => ret frame
  | None => raise NotInUnion
  end.

(** [q.full()]: a capacity of 0 means unbounded. *)
Definition full (q : Queue) : bool :=
  match maxsize q with
  | 0 => false
  | S _ => bool_decide (maxsize q ≤ length (items q))%nat
  end.

(** [await q.get()] *)
Definition Queue_get (q : loc) : M Any := λ w,
  match heap w !! q with
  | Some (mkQueue n (v :: rest)) =>
      (Returned v,
       mkWorld (_req_id w) (_req_id_registry w)
               (<[q := mkQueue n rest]> (heap w)) (next_loc w) (ws w)
               (effects w))
  | _ => (Suspended q, w)
  end.

(** [q.put_nowait(v)] *)
Definition put_nowait (q : loc) (v : Any) : M unit := λ w,
  match heap w !! q with
  | Some qu =>
      if full qu then (Raised QueueFull, w)
      else (Returned tt,
            mkWorld (_req_id w) (_req_id_registry w)
                    (<[q := mkQueue (maxsize qu) (items qu ++ [v])]> (heap w))
                    (next_loc w) (ws w) (effects w))
  | None => (Returned tt, w)
  end.

(** ** class Highrise

    [_req_id] and [_req_id_registry] are class attributes, shared by every
    instance; the world holds the one socket [ws] of the running session. *)

(** [chat] (lines 94-96) *)
Definition chat (message : string) : M unit :=
  send_json [("_type", JStr "ChatRequest"); ("message", JStr message)].

(** [send_whisper] (lines 98-101) *)
Definition send_whisper (user_id message : string) : M unit :=
  send_json [("_type", JStr "ChatRequest"); ("message", JStr message);
             ("whisper_target_id", JStr user_id)].

(** [send_emote] (lines 103-109) *)
Definition send_emote (emote_id : string) (target_user_id : option string)
  : M unit :=
  let payload := [("_type", JStr "EmoteRequest"); ("emote_id", JStr emote_id)] in
  let payload :=
    match target_user_id with
    | Some t => dict_set "target_user_id" (JStr t) payload
    | None => payload
    end in
  send_json payload.

(** [Literal["FrontRight", "FrontLeft", "BackRight", "BackLeft"]] *)
Inductive Facing : Type := FrontRight | FrontLeft | BackRight | BackLeft.

Definition Facing_str (f : Facing) : string :=
  match f with
  | FrontRight => "FrontRight"
  | FrontLeft => "FrontLeft"
  | BackRight => "BackRight"
  | BackLeft => "BackLeft"
  end.

(** [walk_to] (lines 121-128); [json.dumps] writes a tuple as an array. *)
Definition walk_to (dest : float * float * float) (facing : Facing) : M unit :=
  let '(x, y, z) := dest in
  send_json [("_type", JStr "FloorHitRequest");
             ("destination", JArr [JNum x; JNum y; JNum z]);
             ("facing", JStr (Facing_str facing))].

(** [req.rid = rid] inside a coroutine. *)
Definition setattr_rid (req : AttrsInstance) (rid : string)
  : M AttrsInstance :=
  match set_rid req rid with
  | Some req' => ret req'
  | None => raise AttributeError
  end.

(** [do_req_resp] (lines 162-167).  The right-hand side of line 165 creates
    the queue before the subscript assignment stores it. *)
Definition do_req_resp (req : AttrsInstance) : M Any :=
  let* n := next_req_id in
  let rid := str n in
  let* req := setattr_rid req rid in
  let* q := new_Queue 1 in
  do registry_set rid q in
  let* frame := converter_dumps req Outgoing in
  do send_str frame in
  Queue_get q.

(** [set_indicator] (lines 111-114) *)
Definition set_indicator (icon : option string) : M Any :=
  do_req_resp (new_IndicatorRequest icon).

(** [send_channel] (lines 116-119) *)
Definition send_channel (message : string) (tags : gset string) : M Any :=
  do_req_resp (new_ChannelRequest message tags).

(** [teleport] (lines 130-133) *)
Definition teleport (user_id : string) (dest : AttrsInstance) : M Any :=
  do_req_resp (new_TeleportRequest user_id dest).

(** [get_room_users] (lines 135-141); [str] of a str is the str itself. *)
Definition get_room_users : M Any :=
  let* n := next_req_id in
  let req_id := str n in
  let* q := new_Queue 1 in
  do registry_set req_id q in
  let* frame := converter_dumps (new_GetRoomUsersRequest (Some req_id)) Outgoing in
  do send_str frame in
  Queue_get q.

(** ** class BaseBot (lines 44-85): seven handlers, each with body [pass]. *)

Definition on_start (session_metadata : AttrsInstance) : M unit := pass.

Definition on_chat (user : AttrsInstance) (message : string) : M unit := pass.

Definition on_whisper (user : AttrsInstance) (message : string) : M unit :=
  pass.

Definition on_emote (user : AttrsInstance) (emote_id : string)
    (receiver : option AttrsInstance) : M unit := pass.

Definition on_user_join (user : AttrsInstance) : M unit := pass.

Definition on_tip (sender receiver tip : AttrsInstance) : M unit := pass.

Definition on_channel (message : string) (tags : gset string) : M unit := pass.

(** The names that the class body of [BaseBot] binds to a coroutine
    function, in the order written. *)
Definition BaseBot_methods : list string :=
  [ "on_start"; "on_chat"; "on_whisper"; "on_emote"; "on_user_join";
    "on_tip"; "on_channel" ].

(** Modelled from the spec: the dispatcher is not part of the sources; this
    is the routing table of the spec's section 4.3, an incoming kind and the
    handler it is routed to. *)
Definition dispatch_table : list (string * string) :=
  [ ("chat", "on_chat"); ("whisper-flagged chat", "on_whisper");
    ("emote", "on_emote"); ("user joined", "on_user_join");
    ("user left", "on_user_left"); ("tip", "on_tip");
    ("channel message", "on_channel"); ("session metadata", "on_start") ].

(** ** The read loop's delivery step *)

(** Removal of the entry for [rid], as the delivery step below does it. *)
Definition registry_pop (rid : string) : M unit := λ w,
  (Returned tt,
   mkWorld (_req_id w) (delete rid (_req_id_registry w)) (heap w)
           (next_loc w) (ws w) (effects w ++ [EvUnregister rid])).

(** Modelled from the spec: the read loop is not part of the sources.  The
    spec's delivery step takes a decoded incoming message; if it carries a
    correlation id and the registry has an entry for it, the message is put
    into that slot and the entry is removed; if there is no entry the
    message is dropped.  A message without a correlation id goes to the
    dispatcher and leaves the correlator's state alone. *)
Definition deliver (m : AttrsInstance) : M unit := λ w,
  match get_rid m with
  | Some rid =>
      match _req_id_registry w !! rid with
      | Some q => (do put_nowait q (AnyMsg m) in registry_pop rid) w
      | None => (Returned tt, w)
      end
  | None => (Returned tt, w)
  end.

(** ** Runs of the process

    What can happen to the world: a facade call (or a direct call of
    [do_req_resp]) runs up to its return or to the point where it parks, the
    read loop delivers a message, or a parked caller is resumed. *)
Inductive op : Type :=
| Chat (message : string)
| SendWhisper (user_id message : string)
| SendEmote (emote_id : string) (target_user_id : option string)
| WalkTo (dest : float * float * float) (facing : Facing)
| SetIndicator (icon : option string)
| SendChannel (message : string) (tags : gset string)
| Teleport (user_id : string) (dest : AttrsInstance)
| GetRoomUsers
| DoReqResp (req : AttrsInstance)
| Deliver (m : AttrsInstance)
| Resume (q : loc).

Definition none_of (m : M unit) : M Any :=
  do m in ret AnyNone.

Definition exec (o : op) : M Any :=
  match o with
  | Chat message => none_of (chat message)
  | SendWhisper user_id message => none_of (send_whisper user_id message)
  | SendEmote emote_id target => none_of (send_emote emote_id target)
  | WalkTo dest facing => none_of (walk_to dest facing)
  | SetIndicator icon => set_indicator icon
  | SendChannel message tags => send_channel message tags
  | Teleport user_id dest => teleport user_id dest
  | GetRoomUsers => get_room_users
  | DoReqResp req => do_req_resp req
  | Deliver m => none_of (deliver m)
  | Resume q => Queue_get q
  end.

Definition step (o : op) (w : World) : World := (exec o w).2.

Definition run (ops : list op) (w : World) : World :=
  foldl (λ w o, step o w) w ops.

(** The correlation id carried by a frame, if it carries one. *)
Definition frame_rid (frame : json) : option string :=
  match frame with
  | JObj members =>
      match dict_get "rid" members with
      | Some (JStr s) => Some s
      | _ => None
      end
  | _ => None
  end.

(** The correlation ids seen on the socket, oldest first. *)
Definition sent_rids (w : World) : list string := omap frame_rid (ws w).

(** ** Worlds along a run *)

(** [await ws.send_str(frame)] as a function on worlds. *)
Definition sent (frame : json) (w : World) : World := (send_str frame w).2.

(** The world after lines 163-165 of [do_req_resp] (and 136-137 of
    [get_room_users]): the counter has advanced and the new queue is in the
    registry under the new id; nothing has been sent yet. *)
Definition registered (w : World) : World :=
  mkWorld (N.succ (_req_id w))
          (<[str (_req_id w) := next_loc w]> (_req_id_registry w))
          (<[next_loc w := mkQueue 1 []]> (heap w))
          (S (next_loc w))
          (ws w)
          ((effects w ++ [EvNext (_req_id w)])
             ++ [EvRegister (str (_req_id w)) (next_loc w)]).

(** The world after line 166: the stamped request [req'] is on the
    socket. *)
Definition issued (req' : AttrsInstance) (w : World) : World :=
  sent (unstructure req') (registered w).

(** The world after line 163 alone: an id is drawn and nothing else has
    happened. *)
Definition drawn (w : World) : World := (next_req_id w).2.

(** What holds of every world that a run reaches: the registry's keys are
    ids that the counter has handed out, each is bound to its own queue,
    that queue exists and is still empty, and the ids seen on the socket
    were handed out by the counter, each once. *)
Record wf (w : World) : Prop := mk_wf {
  wf_keys : ∀ k q, _req_id_registry w !! k = Some q →
            ∃ n, (n < _req_id w)%N ∧ k = str n;
  wf_slots : ∀ k q, _req_id_registry w !! k = Some q →
             q < next_loc w ∧ heap w !! q = Some (mkQueue 1 []);
  wf_inj : ∀ k1 k2 q, _req_id_registry w !! k1 = Some q →
           _req_id_registry w !! k2 = Some q → k1 = k2;
  wf_sent : ∀ r, r ∈ sent_rids w → ∃ n, (n < _req_id w)%N ∧ r = str n;
  wf_nodup : NoDup (sent_rids w)
}.

(** The request with id [rid] is pending on queue [q]. *)
Definition pending (rid : string) (q : loc) (w : World) : Prop :=
  _req_id_registry w !! rid = Some q ∧ heap w !! q = Some (mkQueue 1 []).

(** The response [v] for id [rid] sits in queue [q], not yet taken, and the
    registry has let go of both the id and the queue. *)
Definition answered (rid : string) (q : loc) (v : Any) (w : World) : Prop :=
  _req_id_registry w !! rid = None ∧
  heap w !! q = Some (mkQueue 1 [v]) ∧
  q < next_loc w ∧
  (∃ n, (n < _req_id w)%N ∧ rid = str n) ∧
  ∀ k, _req_id_registry w !! k ≠ Some q.

(** The world after the delivery step has put [v] into queue [q] and removed
    the id [rid] from the registry. *)
Definition delivered (rid : string) (q : loc) (v : Any) (w : World) : World :=
  mkWorld (_req_id w) (delete rid (_req_id_registry w))
          (<[q := mkQueue 1 [v]]> (heap w)) (next_loc w) (ws w)
          (effects w ++ [EvUnregister rid]).

(** ** Kinds of operations *)

(** The facade calls that only send (lines 94-109 and 121-128). *)
Definition is_one_way (o : op) : bool :=
  match o with
  | Chat _ | SendWhisper _ _ | SendEmote _ _ | WalkTo _ _ => true
  | _ => false
  end.

(** The facade calls that wait for a response (lines 111-119, 130-141). *)
Definition is_correlated (o : op) : bool :=
  match o with
  | SetIndicator _ | SendChannel _ _ | Teleport _ _ | GetRoomUsers => true
  | _ => false
  end.

(** The methods of [Highrise] that talk to the socket. *)
Definition is_facade (o : op) : bool := is_one_way o || is_correlated o.

(** The operations that call [next] on the id counter. *)
Definition draws_id (o : op) : bool :=
  match o with
  | DoReqResp _ => true
  | _ => is_correlated o
  end.

(** The operations that put an entry into the registry: the correlated
    facade calls, and a direct [do_req_resp] on a request that line 164 can
    stamp. *)
Definition registers (o : op) : bool :=
  match o with
  | DoReqResp req => bool_decide (has_rid req)
  | _ => is_correlated o
  end.


Definition is_Deliver (o : op) : bool :=
  match o with
  | Deliver _ => true
  | _ => false
  end.

(** How many operations of a run satisfy [f]. *)
Fixpoint count_ops (f : op → bool) (ops : list op) : nat :=
  match ops with
  | [] => 0
  | o :: ops' => (if f o then 1 else 0) + count_ops f ops'
  end.

(** The decimal ids [str c], [str (c+1)], ..., [k] of them. *)
Definition ids_from (c : N) (k : nat) : list string :=
  (λ i, str (c + N.of_nat i)) <$> seq 0 k.

(** The ids on the socket are the decimals of a strictly increasing list of
    counter values, all below the counter. *)
Definition increasing (w : World) : Prop :=
  ∃ ns, sent_rids w = str <$> ns ∧
        StronglySorted N.lt ns ∧
        Forall (λ n, (n < _req_id w)%N) ns.

(** * Properties *)

Ltac in_list :=
  solve [repeat first [apply list_elem_of_here | apply list_elem_of_further]].

Ltac not_in_list :=
  let H := fresh in
  intros H; simpl in H;
  repeat (apply elem_of_cons in H as [H|H]; [discriminate H|]);
  by apply elem_of_nil in H.

(** ** Dicts and tags *)

Lemma dict_get_set_eq (k : string) (v : json) (d : list (string * json)) :
  dict_get k (dict_set k v d) = Some v.
Proof.
  induction d as [|[k' v'] d IH]; simpl.
  - by rewrite decide_True.
  - destruct (decide (k' = k)) as [->|Hne]; simpl.
    + by rewrite decide_True.
    + by rewrite decide_False.
Qed.

Lemma dict_del_absent (k : string) (d : list (string * json)) :
  dict_get k d = None → dict_del k d = d.
Proof.
  induction d as [|[k' v'] d IH]; simpl; [done|].
  destruct (decide (k' = k)); [done|]. intros H. by rewrite IH.
Qed.

Lemma cls_name_inj : Inj (=) (=) cls_name.
Proof. intros c1 c2 H. destruct c1, c2; first [reflexivity | discriminate H]. Qed.

Lemma cls_of_tag_member (U : list cls) (c : cls) :
  c ∈ U → cls_of_tag U (cls_name c) = Some c.
Proof.
  induction U as [|c' U IH]; intros Hin.
  - by apply elem_of_nil in Hin.
  - simpl. destruct (decide (cls_name c' = cls_name c)) as [Heq|Hne].
    + by rewrite (cls_name_inj _ _ Heq).
    + apply elem_of_cons in Hin as [->|Hin]; [done|]. by apply IH.
Qed.

(** ** The codec *)

(** C3.  Round trip of the wire codec: for either union [U] and every value
    [v] of a class in [U] whose attributes do not use the tag member's name,
    encoding [v] succeeds and decoding the frame gives back [v]. *)
Theorem codec_round_trip (U : list cls) (v : AttrsInstance) :
  U = Outgoing ∨ U = Incoming →
  inst_cls v ∈ U →
  dict_get tag_name (inst_attrs v) = None →
  ∃ frame, dumps v U = Some frame ∧ loads frame U = inr v.
Proof.
  intros _ Hin Hfree. exists (unstructure v). split.
  - unfold dumps. by rewrite decide_True.
  - unfold loads, structure, unstructure. simpl.
    rewrite (cls_of_tag_member U _ Hin). simpl.
    rewrite (dict_del_absent _ _ Hfree). by destruct v.
Qed.

(** The round trip is per union: a frame of the Outgoing union is not a
    frame of the Incoming union unless its class is in both. *)
Example loads_other_union :
  loads (unstructure (new_IndicatorRequest (Some "gear"))) Incoming
    = inl (UnknownTag "IndicatorRequest") ∧
  loads (unstructure (mkInst ChatEvent [("message", JStr "hello")])) Incoming
    = inr (mkInst ChatEvent [("message", JStr "hello")]).
Proof. by split. Qed.

Lemma codec_round_trip_witness :
  ∃ frame,
    dumps (new_TeleportRequest "u1" (mkInst Position [("x", JNum 1%Z)])) Outgoing
      = Some frame ∧
    loads frame Outgoing
      = inr (new_TeleportRequest "u1" (mkInst Position [("x", JNum 1%Z)])).
Proof.
  apply (codec_round_trip Outgoing).
  - by left.
  - unfold Outgoing; in_list.
  - reflexivity.
Defined.

(** ** One-way sends *)

(** C7.  [chat] returns [None] without parking, appends exactly one frame to
    the socket, and leaves the id counter, the registry and the queues as
    they were. *)
Theorem chat_one_way (message : string) (w : World) :
  (chat message w).1 = Returned tt ∧
  ws (chat message w).2
    = ws w ++ [JObj [("_type", JStr "ChatRequest"); ("message", JStr message)]] ∧
  _req_id (chat message w).2 = _req_id w ∧
  _req_id_registry (chat message w).2 = _req_id_registry w ∧
  heap (chat message w).2 = heap w ∧
  next_loc (chat message w).2 = next_loc w.
Proof. by repeat split. Qed.

(** C10.  [send_emote] sends one JSON object whose ["_type"] is
    ["EmoteRequest"] and whose ["emote_id"] is the argument; the object has
    the member ["target_user_id"], with the argument as its value, exactly
    when the argument is not [None], and no such member otherwise. *)
Theorem send_emote_payload (emote_id : string) (target_user_id : option string)
    (w : World) :
  ∃ payload,
    ws (send_emote emote_id target_user_id w).2 = ws w ++ [JObj payload] ∧
    dict_get "_type" payload = Some (JStr "EmoteRequest") ∧
    dict_get "emote_id" payload = Some (JStr emote_id) ∧
    dict_get "target_user_id" payload = JStr <$> target_user_id ∧
    payload.*1 =
      ["_type"; "emote_id"] ++
      match target_user_id with
      | Some _ => ["target_user_id"]
      | None => []
      end.
Proof.
  destruct target_user_id as [t|]; eexists; repeat split.
Qed.

(** ** The correlator *)

Lemma Outgoing_dumps (v : AttrsInstance) :
  inst_cls v ∈ Outgoing → dumps v Outgoing = Some (unstructure v).
Proof. intros Hin. unfold dumps. by rewrite decide_True. Qed.

Lemma set_rid_Some (req req' : AttrsInstance) (rid : string) :
  set_rid req rid = Some req' →
  has_rid req ∧ inst_cls req' = inst_cls req ∧
  inst_attrs req' = dict_set "rid" (JStr rid) (inst_attrs req) ∧
  get_rid req' = Some rid.
Proof.
  unfold set_rid, has_rid, get_rid.
  destruct (dict_get "rid" (inst_attrs req)) as [j|] eqn:E; [|done].
  intros [= <-]. simpl. rewrite dict_get_set_eq. by repeat split.
Qed.

Lemma set_rid_has_rid (req : AttrsInstance) (rid : string) :
  has_rid req → ∃ req', set_rid req rid = Some req'.
Proof.
  unfold has_rid, set_rid. intros [j ->]. by eexists.
Qed.

Lemma set_rid_None (req : AttrsInstance) (rid : string) :
  set_rid req rid = None → ¬ has_rid req.
Proof.
  unfold has_rid, set_rid.
  destruct (dict_get "rid" (inst_attrs req)); [done|]. intros _ [j Hj]. done.
Qed.

Lemma do_req_resp_issued (req req' : AttrsInstance) (w : World) :
  set_rid req (str (_req_id w)) = Some req' →
  inst_cls req ∈ Outgoing →
  do_req_resp req w = (Suspended (next_loc w), issued req' w).
Proof.
  intros Hset Hin.
  destruct (set_rid_Some _ _ _ Hset) as (_ & Hcls & _).
  unfold do_req_resp, bind, setattr_rid, converter_dumps. simpl.
  rewrite Hset. simpl.
  rewrite Outgoing_dumps; [|by rewrite Hcls]. simpl.
  unfold Queue_get. simpl. by rewrite lookup_insert_eq.
Qed.

Lemma facade_requests_have_rid :
  (∀ icon, has_rid (new_IndicatorRequest icon)) ∧
  (∀ message tags, has_rid (new_ChannelRequest message tags)) ∧
  (∀ user_id dest, has_rid (new_TeleportRequest user_id dest)) ∧
  (∀ rid0, has_rid (new_GetRoomUsersRequest rid0)).
Proof. repeat split; intros; unfold has_rid; simpl; by eexists. Qed.

Lemma do_req_resp_issued_ex (req : AttrsInstance) (w : World) :
  has_rid req → inst_cls req ∈ Outgoing →
  ∃ req', set_rid req (str (_req_id w)) = Some req' ∧
          inst_cls req' ∈ Outgoing ∧
          do_req_resp req w = (Suspended (next_loc w), issued req' w).
Proof.
  intros Hrid Hin.
  destruct (set_rid_has_rid req (str (_req_id w)) Hrid) as [req' Hset].
  exists req'. destruct (set_rid_Some _ _ _ Hset) as (_ & Hcls & _).
  split; [done|]. split; [by rewrite Hcls|]. by apply do_req_resp_issued.
Qed.

Lemma get_room_users_eq (rid0 : option string) (w : World) :
  get_room_users w = do_req_resp (new_GetRoomUsersRequest rid0) w.
Proof. by destruct rid0. Qed.

Lemma GetRoomUsersRequest_Outgoing (rid0 : option string) :
  inst_cls (new_GetRoomUsersRequest rid0) ∈ Outgoing.
Proof. unfold Outgoing; in_list. Qed.

(** C6.  [get_room_users] is [do_req_resp] applied to a
    [GetRoomUsersRequest]: it takes the next id from the same counter, puts
    a new queue of capacity one into the same registry under that id, sends
    the encoded [GetRoomUsersRequest] that carries the id and parks on the
    queue; resumed after a value was put into the queue, it returns that
    value, a list of (User, Position) pairs as well as any other. *)
Theorem get_room_users_as_do_req_resp (rid0 : option string) (v : Any)
    (w : World) :
  get_room_users w = do_req_resp (new_GetRoomUsersRequest rid0) w ∧
  get_room_users w
    = (Suspended (next_loc w),
       mkWorld (N.succ (_req_id w))
               (<[str (_req_id w) := next_loc w]> (_req_id_registry w))
               (<[next_loc w := mkQueue 1 []]> (heap w))
               (S (next_loc w))
               (ws w ++ [unstructure
                           (new_GetRoomUsersRequest (Some (str (_req_id w))))])
               (effects w ++
                  [EvNext (_req_id w);
                   EvRegister (str (_req_id w)) (next_loc w);
                   EvSend (unstructure
                             (new_GetRoomUsersRequest
                                (Some (str (_req_id w)))))])) ∧
  dumps (new_GetRoomUsersRequest (Some (str (_req_id w)))) Outgoing
    = Some (unstructure (new_GetRoomUsersRequest (Some (str (_req_id w))))) ∧
  (Queue_get (next_loc w)
     (put_nowait (next_loc w) v (get_room_users w).2).2).1 = Returned v.
Proof.
  split; [apply get_room_users_eq|].
  assert (get_room_users w
            = (Suspended (next_loc w),
               issued (new_GetRoomUsersRequest (Some (str (_req_id w)))) w))
    as E.
  { rewrite (get_room_users_eq rid0).
    apply do_req_resp_issued; [by destruct rid0|].
    apply GetRoomUsersRequest_Outgoing. }
  split. { rewrite E. unfold issued, sent, registered. simpl.
           by rewrite <- !app_assoc. }
  split; [apply Outgoing_dumps, GetRoomUsersRequest_Outgoing|].
  rewrite E. unfold put_nowait, Queue_get. simpl.
  rewrite lookup_insert_eq. simpl. by rewrite lookup_insert_eq.
Qed.

(** ** Which frames come out of the codec *)

Lemma Outgoing_tag (v : AttrsInstance) (tag : string) :
  inst_cls v ∈ Outgoing →
  tag ∉ (cls_name <$> Outgoing) →
  cls_name (inst_cls v) ≠ tag.
Proof.
  intros Hin Hnot <-. apply Hnot. by apply list_elem_of_fmap_2.
Qed.

Lemma hand_written_not_encoded (members : list (string * json)) (tag : string)
    (rest : list (string * json)) (v : AttrsInstance) (frame : json) :
  members = ("_type", JStr tag) :: rest →
  tag ∉ (cls_name <$> Outgoing) →
  dumps v Outgoing = Some frame →
  frame ≠ JObj members.
Proof.
  intros -> Hnot Hd Heq. unfold dumps in Hd.
  destruct (decide (inst_cls v ∈ Outgoing)) as [Hin|]; [|done].
  injection Hd as <-. unfold unstructure in Heq. injection Heq as Htag _.
  by apply (Outgoing_tag v tag).
Qed.

(** C5, as stated, fails: the frame that [chat "hi"] sends is not the
    encoding of any value of the Outgoing union. *)
Lemma chat_frame_not_encoded :
  ¬ ∃ v frame,
      dumps v Outgoing = Some frame ∧
      ws (step (Chat "hi") initial) = ws initial ++ [frame].
Proof.
  intros (v & frame & Hd & Hws). simpl in Hws. injection Hws as <-.
  eapply hand_written_not_encoded; [reflexivity| |exact Hd|reflexivity].
  unfold Outgoing; not_in_list.
Qed.

(** C5, amended.  The four correlated calls send the frame that
    [converter.dumps] makes of a value of the Outgoing union.  The four
    one-way calls send a JSON object written by hand; its ["_type"] is
    ["ChatRequest"], ["EmoteRequest"] or ["FloorHitRequest"], no class of the
    Outgoing union has that name, and so the frame is not the encoding of any
    Outgoing value. *)
Theorem facade_frames (o : op) (w : World) :
  match o with
  | SetIndicator _ | SendChannel _ _ | Teleport _ _ | GetRoomUsers =>
      ∃ v frame,
        dumps v Outgoing = Some frame ∧ ws (step o w) = ws w ++ [frame]
  | Chat _ | SendWhisper _ _ | SendEmote _ _ | WalkTo _ _ =>
      ∃ members tag,
        ws (step o w) = ws w ++ [JObj members] ∧
        dict_get "_type" members = Some (JStr tag) ∧
        tag ∈ ["ChatRequest"; "EmoteRequest"; "FloorHitRequest"] ∧
        (tag ∉ cls_name <$> Outgoing) ∧
        ∀ v frame, dumps v Outgoing = Some frame → frame ≠ JObj members
  | DoReqResp _ | Deliver _ | Resume _ => True
  end.
Proof.
  destruct facade_requests_have_rid as (Hr1 & Hr2 & Hr3 & Hr4).
  assert (∀ req, has_rid req → inst_cls req ∈ Outgoing →
            ∃ v frame, dumps v Outgoing = Some frame ∧
                       ws (do_req_resp req w).2 = ws w ++ [frame]) as Hcorr.
  { intros req Hrid Hin.
    destruct (do_req_resp_issued_ex req w Hrid Hin) as (req' & _ & Hin' & ->).
    exists req'. eexists. split; [by apply Outgoing_dumps | done]. }
  assert (∀ tag rest,
            tag ∈ ["ChatRequest"; "EmoteRequest"; "FloorHitRequest"] →
            ∃ members tag',
              ws w ++ [JObj (("_type", JStr tag) :: rest)]
                = ws w ++ [JObj members] ∧
              dict_get "_type" members = Some (JStr tag') ∧
              tag' ∈ ["ChatRequest"; "EmoteRequest"; "FloorHitRequest"] ∧
              (tag' ∉ cls_name <$> Outgoing) ∧
              ∀ v frame, dumps v Outgoing = Some frame → frame ≠ JObj members)
    as Hhand.
  { intros tag rest Htag. exists (("_type", JStr tag) :: rest), tag.
    assert (tag ∉ (cls_name <$> Outgoing)) as Hnot.
    { repeat (apply elem_of_cons in Htag as [->|Htag]; [not_in_list|]).
      by apply elem_of_nil in Htag. }
    repeat split; try done.
    intros v frame Hd. by eapply hand_written_not_encoded. }
  destruct o as [m|u m|e [t|]|[[x y] z] f|icon|m tags|u dest| | | |]; try exact I.
  - apply Hhand; in_list.
  - apply Hhand; in_list.
  - apply Hhand; in_list.
  - apply Hhand; in_list.
  - apply Hhand; in_list.
  - apply Hcorr; [apply Hr1 | unfold Outgoing; in_list].
  - apply Hcorr; [apply Hr2 | unfold Outgoing; in_list].
  - apply Hcorr; [apply Hr3 | unfold Outgoing; in_list].
  - unfold step. simpl. rewrite (get_room_users_eq None).
    apply Hcorr; [apply Hr4 | apply GetRoomUsersRequest_Outgoing].
Qed.

(** ** BaseBot *)

(** C9, as stated, fails: the routing table names [on_user_left], and
    [BaseBot] defines no method of that name. *)
Lemma on_user_left_not_defined :
  ¬ ∀ row, row ∈ dispatch_table → row.2 ∈ BaseBot_methods.
Proof.
  intros H. specialize (H ("user left", "on_user_left")).
  assert ("on_user_left" ∉ BaseBot_methods) as Hnot by not_in_list.
  apply Hnot, H. unfold dispatch_table; in_list.
Qed.

(** C9, amended.  Each of the seven handlers of [BaseBot] returns [None] and
    leaves the world as it was, whatever its arguments; every handler of the
    routing table other than [on_user_left] is one of the seven, and
    [on_user_left] is not. *)
Theorem BaseBot_defaults :
  (∀ sm w, on_start sm w = (Returned tt, w)) ∧
  (∀ user message w, on_chat user message w = (Returned tt, w)) ∧
  (∀ user message w, on_whisper user message w = (Returned tt, w)) ∧
  (∀ user emote_id receiver w,
     on_emote user emote_id receiver w = (Returned tt, w)) ∧
  (∀ user w, on_user_join user w = (Returned tt, w)) ∧
  (∀ sender receiver tip w, on_tip sender receiver tip w = (Returned tt, w)) ∧
  (∀ message tags w, on_channel message tags w = (Returned tt, w)) ∧
  (∀ row, row ∈ dispatch_table →
     row.2 ≠ "on_user_left" → row.2 ∈ BaseBot_methods) ∧
  "on_user_left" ∉ BaseBot_methods.
Proof.
  repeat split.
  - intros [kind h] Hin Hne. unfold dispatch_table in Hin. simpl in Hne.
    repeat (apply elem_of_cons in Hin as [[= -> ->]|Hin];
            [first [done | unfold BaseBot_methods; in_list]|]).
    by apply elem_of_nil in Hin.
  - not_in_list.
Qed.

(** ** Invariants of a run *)

Lemma str_inj (n m : N) : str n = str m → n = m.
Proof. apply (inj pretty). Qed.

Lemma frame_rid_unstructure (req' : AttrsInstance) :
  frame_rid (unstructure req') = get_rid req'.
Proof. done. Qed.

Lemma frame_rid_stamped (req req' : AttrsInstance) (rid : string) :
  set_rid req rid = Some req' → frame_rid (unstructure req') = Some rid.
Proof.
  intros Hset. rewrite frame_rid_unstructure.
  by destruct (set_rid_Some _ _ _ Hset) as (_ & _ & _ & ?).
Qed.

Lemma sent_rids_sent (frame : json) (w : World) :
  sent_rids (sent frame w)
    = sent_rids w ++ match frame_rid frame with Some r => [r] | None => [] end.
Proof.
  unfold sent_rids, sent. simpl. rewrite omap_app. simpl.
  by destruct (frame_rid frame).
Qed.

Lemma wf_initial : wf initial.
Proof.
  split; simpl; try done.
  - intros r Hr. by apply elem_of_nil in Hr.
  - constructor.
Qed.

Lemma wf_sent_plain (frame : json) (w : World) :
  frame_rid frame = None → wf w → wf (sent frame w).
Proof.
  intros Hnone [Hk Hs Hi Hr Hn].
  split; try done; rewrite sent_rids_sent, Hnone, app_nil_r; done.
Qed.

Lemma wf_registered (w : World) : wf w → wf (registered w).
Proof.
  intros [Hk Hs Hi Hr Hn]. split; simpl.
  - intros k q. rewrite lookup_insert. case_decide as Hd.
    + intros _. exists (_req_id w). split; [lia | done].
    + intros Hq. destruct (Hk _ _ Hq) as (n & Hlt & ->).
      exists n. split; [lia | done].
  - intros k q. rewrite lookup_insert. case_decide as Hd.
    + intros [= <-]. split; [lia|]. by rewrite lookup_insert_eq.
    + intros Hq. destruct (Hs _ _ Hq) as [Hlt Hh]. split; [lia|].
      rewrite lookup_insert_ne; [done | lia].
  - intros k1 k2 q. rewrite !lookup_insert.
    case_decide as H1; case_decide as H2.
    + congruence.
    + intros [= <-] Hq. destruct (Hs _ _ Hq). lia.
    + intros Hq [= <-]. destruct (Hs _ _ Hq). lia.
    + apply Hi.
  - intros r Hin. destruct (Hr r Hin) as (n & Hlt & ->).
    exists n. split; [lia | done].
  - done.
Qed.

Lemma wf_drawn (w : World) : wf w → wf (drawn w).
Proof.
  intros [Hk Hs Hi Hr Hn]. split; simpl; try done.
  - intros k q Hq. destruct (Hk _ _ Hq) as (n & Hlt & ->).
    exists n. split; [lia | done].
  - intros r Hin. destruct (Hr r Hin) as (n & Hlt & ->).
    exists n. split; [lia | done].
Qed.

Lemma wf_issued (req' : AttrsInstance) (w : World) :
  frame_rid (unstructure req') = Some (str (_req_id w)) →
  wf w → wf (issued req' w).
Proof.
  intros Hfr Hwf. pose proof (wf_registered w Hwf) as [Hk Hs Hi Hr Hn].
  unfold issued. split; try done.
  - intros r. rewrite sent_rids_sent, Hfr.
    intros [Hin| ->%list_elem_of_singleton]%elem_of_app.
    + by apply Hr.
    + exists (_req_id w). simpl. split; [lia | done].
  - rewrite sent_rids_sent, Hfr.
    apply NoDup_app. split; [done|]. split; [|apply NoDup_singleton].
    intros r Hin ->%list_elem_of_singleton.
    destruct (wf_sent w Hwf _ Hin) as (n & Hlt & Heq).
    apply str_inj in Heq. lia.
Qed.

Lemma deliver_pending (m : AttrsInstance) (rid : string) (q : loc) (w : World) :
  get_rid m = Some rid → pending rid q w →
  deliver m w = (Returned tt, delivered rid q (AnyMsg m) w).
Proof.
  intros Hrid [Hreg Hheap]. unfold deliver. rewrite Hrid, Hreg.
  unfold bind, put_nowait. by rewrite Hheap.
Qed.

Lemma deliver_unknown (m : AttrsInstance) (w : World) :
  (∀ rid, get_rid m = Some rid → _req_id_registry w !! rid = None) →
  deliver m w = (Returned tt, w).
Proof.
  intros H. unfold deliver. destruct (get_rid m) as [rid|]; [|done].
  by rewrite (H rid).
Qed.

Lemma deliver_cases (m : AttrsInstance) (w : World) :
  wf w →
  deliver m w = (Returned tt, w) ∨
  ∃ rid q, get_rid m = Some rid ∧ pending rid q w ∧
           deliver m w = (Returned tt, delivered rid q (AnyMsg m) w).
Proof.
  intros Hwf. destruct (get_rid m) as [rid|] eqn:Hrid.
  - destruct (_req_id_registry w !! rid) as [q|] eqn:Hreg.
    + right. exists rid, q. destruct (wf_slots w Hwf _ _ Hreg) as [_ Hh].
      assert (pending rid q w) as Hp by (by split).
      split; [done|]. split; [done|]. exact (deliver_pending m rid q w Hrid Hp).
    + left. apply deliver_unknown. intros rid'. congruence.
  - left. apply deliver_unknown. intros rid'. congruence.
Qed.

Lemma wf_delivered (rid : string) (q : loc) (v : Any) (w : World) :
  wf w → pending rid q w → wf (delivered rid q v w).
Proof.
  intros [Hk Hs Hi Hr Hn] [Hreg Hheap]. split; simpl; try done.
  - intros k q' [_ Hq]%lookup_delete_Some. by apply (Hk k q').
  - intros k q' [Hne Hq]%lookup_delete_Some. destruct (Hs _ _ Hq) as [Hlt Hh].
    split; [done|]. rewrite lookup_insert_ne; [done|].
    intros <-. apply Hne. by apply (Hi rid k q).
  - intros k1 k2 q' [_ H1]%lookup_delete_Some [_ H2]%lookup_delete_Some.
    by apply (Hi k1 k2 q').
Qed.

Lemma Queue_get_cases (q : loc) (w : World) :
  (∃ n v rest, heap w !! q = Some (mkQueue n (v :: rest)) ∧
     Queue_get q w
       = (Returned v,
          mkWorld (_req_id w) (_req_id_registry w)
                  (<[q := mkQueue n rest]> (heap w)) (next_loc w) (ws w)
                  (effects w))) ∨
  ((∀ n v rest, heap w !! q ≠ Some (mkQueue n (v :: rest))) ∧
   Queue_get q w = (Suspended q, w)).
Proof.
  unfold Queue_get. destruct (heap w !! q) as [[n [|v rest]]|] eqn:Hh.
  - right. split; [|done]. intros n' v rest. congruence.
  - left. by exists n, v, rest.
  - right. split; [|done]. intros n' v rest. congruence.
Qed.

Lemma wf_Queue_get (q : loc) (w : World) : wf w → wf (Queue_get q w).2.
Proof.
  intros Hwf. destruct (Queue_get_cases q w) as [(n & v & rest & Hh & ->)|[_ ->]];
    [|done].
  destruct Hwf as [Hk Hs Hi Hr Hn]. split; simpl; try done.
  intros k q' Hq. destruct (Hs _ _ Hq) as [Hlt Hh']. split; [done|].
  rewrite lookup_insert_ne; [done|]. intros <-. congruence.
Qed.

(** ** Every step is one of six kinds *)

Lemma do_req_resp_cases (req : AttrsInstance) (w : World) :
  (set_rid req (str (_req_id w)) = None ∧
   do_req_resp req w = (Raised AttributeError, drawn w)) ∨
  (∃ req', set_rid req (str (_req_id w)) = Some req' ∧
           inst_cls req ∈ Outgoing ∧
           do_req_resp req w = (Suspended (next_loc w), issued req' w)) ∨
  (∃ req', set_rid req (str (_req_id w)) = Some req' ∧
           (inst_cls req ∉ Outgoing) ∧
           do_req_resp req w = (Raised NotInUnion, registered w)).
Proof.
  destruct (set_rid req (str (_req_id w))) as [req'|] eqn:Hset.
  - right. destruct (decide (inst_cls req ∈ Outgoing)) as [Hin|Hout].
    + left. exists req'. split; [done|]. split; [done|].
      by apply do_req_resp_issued.
    + right. exists req'. split; [done|]. split; [done|].
      destruct (set_rid_Some _ _ _ Hset) as (_ & Hcls & _).
      unfold do_req_resp, bind, setattr_rid, converter_dumps, dumps. simpl.
      rewrite Hset. simpl. rewrite decide_False; [done | by rewrite Hcls].
  - left. split; [done|].
    unfold do_req_resp, bind, setattr_rid. simpl. by rewrite Hset.
Qed.

Lemma none_of_world (m : M unit) (w : World) : (none_of m w).2 = (m w).2.
Proof. unfold none_of, bind. by destruct (m w) as [[[]| |] w']. Qed.

Lemma step_cases (o : op) (w : World) :
  (∃ frame, frame_rid frame = None ∧ step o w = sent frame w) ∨
  (∃ req', frame_rid (unstructure req') = Some (str (_req_id w)) ∧
           step o w = issued req' w) ∨
  step o w = registered w ∨
  step o w = drawn w ∨
  (∃ m, o = Deliver m ∧ step o w = (deliver m w).2) ∨
  (∃ q, o = Resume q ∧ step o w = (Queue_get q w).2).
Proof.
  assert (∀ req,
            (∃ req', frame_rid (unstructure req') = Some (str (_req_id w)) ∧
                     (do_req_resp req w).2 = issued req' w) ∨
            (do_req_resp req w).2 = registered w ∨
            (do_req_resp req w).2 = drawn w) as Hreq.
  { intros req.
    destruct (do_req_resp_cases req w)
      as [[_ ->]|[(req' & Hset & _ & ->)|(req' & _ & _ & ->)]].
    - by do 2 right.
    - left. exists req'. split; [by eapply frame_rid_stamped | done].
    - right. by left. }
  destruct o as [m|u m|e [t|]|[[x y] z] f|icon|m tags|u dest| |req|m|q].
  - left. eexists. split; [|reflexivity]. reflexivity.
  - left. eexists. split; [|reflexivity]. reflexivity.
  - left. eexists. split; [|reflexivity]. reflexivity.
  - left. eexists. split; [|reflexivity]. reflexivity.
  - left. eexists. split; [|reflexivity]. reflexivity.
  - right. destruct (Hreq (new_IndicatorRequest icon)) as [H|[H|H]]; eauto.
  - right. destruct (Hreq (new_ChannelRequest m tags)) as [H|[H|H]]; eauto.
  - right. destruct (Hreq (new_TeleportRequest u dest)) as [H|[H|H]]; eauto.
  - right. unfold step. simpl. rewrite (get_room_users_eq None).
    destruct (Hreq (new_GetRoomUsersRequest None)) as [H|[H|H]]; eauto.
  - right. destruct (Hreq req) as [H|[H|H]]; eauto.
  - do 4 right. left. exists m. split; [done|]. apply none_of_world.
  - do 5 right. by exists q.
Qed.

Lemma wf_step (o : op) (w : World) : wf w → wf (step o w).
Proof.
  intros Hwf.
  destruct (step_cases o w)
    as [(frame & Hnone & ->)|[(req' & Hfr & ->)|[->|[->|[(m & _ & ->)|(q & _ & ->)]]]]].
  - by apply wf_sent_plain.
  - by apply wf_issued.
  - by apply wf_registered.
  - by apply wf_drawn.
  - destruct (deliver_cases m w Hwf) as [->|(rid & q & _ & Hp & ->)]; [done|].
    by apply wf_delivered.
  - by apply wf_Queue_get.
Qed.

Lemma wf_run (ops : list op) (w : World) : wf w → wf (run ops w).
Proof.
  revert w. induction ops as [|o ops IH]; intros w Hwf; [done|].
  simpl. by apply IH, wf_step.
Qed.

Lemma req_id_step (o : op) (w : World) : (_req_id w ≤ _req_id (step o w))%N.
Proof.
  destruct (step_cases o w)
    as [(frame & Hnone & ->)|[(req' & Hfr & ->)|[->|[->|[(m & _ & ->)|(q & _ & ->)]]]]];
    simpl; try lia.
  - unfold deliver. destruct (get_rid m) as [rid|]; [|done].
    destruct (_req_id_registry w !! rid) as [q|]; [|done].
    unfold bind, put_nowait. destruct (heap w !! q) as [qu|]; [|done].
    by destruct (full qu).
  - destruct (Queue_get_cases q w) as [(n & v & rest & _ & ->)|[_ ->]]; done.
Qed.

Lemma fresh_id_unregistered (w : World) :
  wf w → _req_id_registry w !! str (_req_id w) = None.
Proof.
  intros Hwf. destruct (_req_id_registry w !! str (_req_id w)) as [q|] eqn:Hq;
    [|done].
  destruct (wf_keys w Hwf _ _ Hq) as (n & Hlt & Heq). apply str_inj in Heq. lia.
Qed.

(** C2.  Ids come from a counter that only moves forward.  No step of a run
    lowers the counter; [do_req_resp] and [get_room_users] both take its
    current value [n] and advance it by one, and register [str n]
    ([do_req_resp] when the request has a [rid] attribute to stamp).  In every
    world that a run reaches from the initial state the ids seen on the
    socket are pairwise distinct and were all handed out by the counter, the
    id that the next request will take is not in the registry (so
    registering never replaces a pending entry), and no two ids of the
    registry share a queue. *)
Theorem correlation_ids_unique (ops : list op) (o : op) (req : AttrsInstance) :
  let w := run ops initial in
  (_req_id w ≤ _req_id (step o w))%N ∧
  _req_id (do_req_resp req w).2 = N.succ (_req_id w) ∧
  (has_rid req →
   _req_id_registry (do_req_resp req w).2 !! str (_req_id w)
     = Some (next_loc w)) ∧
  _req_id (get_room_users w).2 = N.succ (_req_id w) ∧
  _req_id_registry (get_room_users w).2 !! str (_req_id w)
    = Some (next_loc w) ∧
  NoDup (sent_rids w) ∧
  (∀ r, r ∈ sent_rids w → ∃ n, (n < _req_id w)%N ∧ r = str n) ∧
  (∀ n m, str n = str m → n = m) ∧
  _req_id_registry w !! str (_req_id w) = None ∧
  (∀ k1 k2 q, _req_id_registry w !! k1 = Some q →
              _req_id_registry w !! k2 = Some q → k1 = k2).
Proof.
  intros w. assert (wf w) as Hwf by apply wf_run, wf_initial.
  assert (∀ r, _req_id (do_req_resp r w).2 = N.succ (_req_id w) ∧
               (has_rid r →
                _req_id_registry (do_req_resp r w).2 !! str (_req_id w)
                  = Some (next_loc w))) as Hreq.
  { intros r.
    destruct (do_req_resp_cases r w)
      as [[Hnone ->]|[(r' & _ & _ & ->)|(r' & _ & _ & ->)]]; simpl.
    - split; [done|]. intros Hrid. by destruct (set_rid_None _ _ Hnone).
    - split; [done|]. intros _. by rewrite lookup_insert_eq.
    - split; [done|]. intros _. by rewrite lookup_insert_eq. }
  destruct facade_requests_have_rid as (_ & _ & _ & Hr4).
  split; [apply req_id_step|].
  split; [apply Hreq|]. split; [apply Hreq|].
  rewrite (get_room_users_eq None).
  split; [apply Hreq|]. split; [apply Hreq, Hr4|].
  split; [by apply wf_nodup|]. split; [by apply wf_sent|].
  split; [apply str_inj|].
  split; [by apply fresh_id_unregistered|]. by apply wf_inj.
Qed.

(** ** A request from issue to return *)

Lemma pending_issued (req' : AttrsInstance) (w : World) :
  pending (str (_req_id w)) (next_loc w) (issued req' w).
Proof. split; simpl; by rewrite lookup_insert_eq. Qed.

Lemma pending_registered_other (rid : string) (q : loc) (w : World) :
  wf w → pending rid q w → pending rid q (registered w).
Proof.
  intros Hwf [Hreg Hheap].
  destruct (wf_keys w Hwf _ _ Hreg) as (n & Hlt & ->).
  destruct (wf_slots w Hwf _ _ Hreg) as [Hq _].
  split; simpl.
  - rewrite lookup_insert_ne; [done|]. intros Heq%str_inj. lia.
  - rewrite lookup_insert_ne; [done | lia].
Qed.

Lemma pending_step (rid : string) (q : loc) (o : op) (w : World) :
  wf w → pending rid q w →
  (∀ m, o = Deliver m → get_rid m ≠ Some rid) →
  pending rid q (step o w).
Proof.
  intros Hwf Hp Ho.
  destruct (step_cases o w)
    as [(frame & Hnone & ->)|[(req' & _ & ->)|[->|[->|[(m & -> & ->)|(q' & _ & ->)]]]]].
  - done.
  - by apply (pending_registered_other rid q w).
  - by apply pending_registered_other.
  - done.
  - destruct (deliver_cases m w Hwf) as [->|(rid' & q' & Hrid & Hp' & ->)];
      [done|].
    assert (rid' ≠ rid) as Hne.
    { intros ->. by apply (Ho m). }
    destruct Hp as [Hreg Hheap]. destruct Hp' as [Hreg' _].
    split; simpl.
    + by rewrite lookup_delete_ne.
    + rewrite lookup_insert_ne; [done|]. intros ->.
      apply Hne. by apply (wf_inj w Hwf rid' rid q).
  - destruct (Queue_get_cases q' w) as [(n & v & rest & Hh & ->)|[_ ->]];
      [|done].
    destruct Hp as [Hreg Hheap]. split; simpl; [done|].
    rewrite lookup_insert_ne; [done|]. intros ->. congruence.
Qed.

Lemma pending_run (rid : string) (q : loc) (ops : list op) (w : World) :
  wf w → pending rid q w →
  (∀ m, Deliver m ∈ ops → get_rid m ≠ Some rid) →
  pending rid q (run ops w).
Proof.
  revert w. induction ops as [|o ops IH]; intros w Hwf Hp Hops; [done|].
  simpl. apply IH.
  - by apply wf_step.
  - apply pending_step; [done..|]. intros m ->. apply Hops. left.
  - intros m Hin. apply Hops. by right.
Qed.

Lemma answered_delivered (rid : string) (q : loc) (v : Any) (w : World) :
  wf w → pending rid q w → answered rid q v (delivered rid q v w).
Proof.
  intros Hwf [Hreg Hheap].
  destruct (wf_slots w Hwf _ _ Hreg) as [Hq _].
  split; [apply lookup_delete_eq|].
  split; [apply lookup_insert_eq|].
  split; [done|]. split; [by apply (wf_keys w Hwf rid q)|].
  simpl. intros k [Hne Hk]%lookup_delete_Some.
  apply Hne. by apply (wf_inj w Hwf rid k q).
Qed.

Lemma answered_registered (rid : string) (q : loc) (v : Any) (w : World) :
  answered rid q v w → answered rid q v (registered w).
Proof.
  intros (Hreg & Hheap & Hq & (n & Hlt & ->) & Hfree).
  split; simpl.
  { rewrite lookup_insert_ne; [done|]. intros Heq%str_inj. lia. }
  split. { rewrite lookup_insert_ne; [done | lia]. }
  split; [lia|]. split. { exists n. split; [lia | done]. }
  intros k. rewrite lookup_insert. case_decide; [|apply Hfree].
  intros [= Heq]. lia.
Qed.

Lemma answered_step (rid : string) (q : loc) (v : Any) (o : op) (w : World) :
  wf w → answered rid q v w → o ≠ Resume q → answered rid q v (step o w).
Proof.
  intros Hwf Ha Ho.
  destruct (step_cases o w)
    as [(frame & Hnone & ->)|[(req' & _ & ->)|[->|[->|[(m & _ & ->)|(q' & -> & ->)]]]]].
  - done.
  - by apply (answered_registered rid q v w).
  - by apply answered_registered.
  - destruct Ha as (Hreg & Hheap & Hq & (n & Hlt & ->) & Hfree).
    split; [done|]. split; [done|]. split; [done|]. split; [|done].
    exists n. simpl. split; [lia | done].
  - destruct (deliver_cases m w Hwf) as [->|(rid' & q' & _ & [Hreg' _] & ->)];
      [done|].
    destruct Ha as (Hreg & Hheap & Hq & Hn & Hfree).
    assert (q' ≠ q) as Hne. { intros ->. by apply (Hfree rid'). }
    split; simpl. { apply lookup_delete_None. by right. }
    split. { by rewrite lookup_insert_ne. }
    split; [done|]. split; [done|].
    intros k [_ Hk]%lookup_delete_Some. by apply (Hfree k).
  - destruct (Queue_get_cases q' w) as [(n & v' & rest & Hh & ->)|[_ ->]];
      [|done].
    destruct Ha as (Hreg & Hheap & Hq & Hn & Hfree).
    split; simpl; [done|]. split; [|done].
    rewrite lookup_insert_ne; [done|]. intros ->. by apply Ho.
Qed.

Lemma answered_run (rid : string) (q : loc) (v : Any) (ops : list op)
    (w : World) :
  wf w → answered rid q v w → Resume q ∉ ops → answered rid q v (run ops w).
Proof.
  revert w. induction ops as [|o ops IH]; intros w Hwf Ha Hops; [done|].
  simpl. apply IH.
  - by apply wf_step.
  - apply answered_step; [done..|]. intros ->. apply Hops. left.
  - intros Hin. apply Hops. by right.
Qed.

Lemma Queue_get_answered (rid : string) (q : loc) (v : Any) (w : World) :
  answered rid q v w →
  (Queue_get q w).1 = Returned v ∧
  _req_id_registry (Queue_get q w).2 !! rid = None.
Proof.
  intros (Hreg & Hheap & _). unfold Queue_get. by rewrite Hheap.
Qed.

Lemma Queue_get_registry (q : loc) (w : World) :
  _req_id_registry (Queue_get q w).2 = _req_id_registry w.
Proof.
  by destruct (Queue_get_cases q w) as [(n & v & rest & _ & ->)|[_ ->]].
Qed.

Lemma Queue_get_pending (rid : string) (q : loc) (w : World) :
  pending rid q w → Queue_get q w = (Suspended q, w).
Proof. intros [_ Hheap]. unfold Queue_get. by rewrite Hheap. Qed.

(** C1.  A correlated request (an instance with a [rid] attribute, of a
    class of the Outgoing union) is issued in a world reached by any run; it
    parks on its new queue [q] under the new id [rid].  Whatever happens next
    short of a delivery for [rid], the entry stays and the caller stays
    parked.  Once the read loop delivers the response that carries [rid], the
    registry has no entry for [rid]; whatever happens after that, short of
    someone else reading [q], the parked call returns that response and the
    registry still has no entry for [rid].  [Queue_get], the last step of
    [do_req_resp], does not touch the registry: the delivery step is what
    removes the entry. *)
Theorem response_removes_entry (ops0 ops1 ops2 : list op)
    (req resp : AttrsInstance) (w0 w1 w2 : World) (rid : string) (q : loc) :
  w0 = run ops0 initial →
  rid = str (_req_id w0) →
  q = next_loc w0 →
  has_rid req →
  inst_cls req ∈ Outgoing →
  get_rid resp = Some rid →
  (∀ m, Deliver m ∈ ops1 → get_rid m ≠ Some rid) →
  Resume q ∉ ops2 →
  w1 = run ops1 (do_req_resp req w0).2 →
  w2 = run ops2 (deliver resp w1).2 →
  (do_req_resp req w0).1 = Suspended q ∧
  _req_id_registry w1 !! rid = Some q ∧
  (Queue_get q w1).1 = Suspended q ∧
  _req_id_registry (deliver resp w1).2 !! rid = None ∧
  (Queue_get q w2).1 = Returned (AnyMsg resp) ∧
  _req_id_registry (Queue_get q w2).2 !! rid = None ∧
  _req_id_registry (Queue_get q w2).2 = _req_id_registry w2.
Proof.
  intros -> -> -> Hhas Hcls Hrid Hops1 Hops2 -> ->.
  set (w0 := run ops0 initial) in *.
  assert (wf w0) as Hwf0 by apply wf_run, wf_initial.
  destruct (do_req_resp_issued_ex req w0 Hhas Hcls) as (req' & Hset & _ & E).
  rewrite E in *. simpl.
  pose proof (frame_rid_stamped _ _ _ Hset) as Hfr.
  set (w1 := run ops1 (issued req' w0)) in *.
  assert (wf w1) as Hwf1 by by apply wf_run, wf_issued.
  assert (pending (str (_req_id w0)) (next_loc w0) w1) as Hp.
  { apply pending_run; [by apply wf_issued | apply pending_issued | done]. }
  rewrite (deliver_pending resp _ _ w1 Hrid Hp) in *. simpl.
  assert (answered (str (_req_id w0)) (next_loc w0) (AnyMsg resp)
            (run ops2 (delivered (str (_req_id w0)) (next_loc w0)
                                 (AnyMsg resp) w1))) as Ha.
  { apply answered_run; [by apply wf_delivered | | done].
    by apply answered_delivered. }
  split; [done|]. split; [apply Hp|].
  split; [by rewrite (Queue_get_pending _ _ _ Hp)|].
  split; [apply lookup_delete_eq|].
  destruct (Queue_get_answered _ _ _ _ Ha) as [Hret Hgone].
  split; [done|]. split; [done|]. apply Queue_get_registry.
Qed.

Lemma response_removes_entry_witness :
  let P := mkInst Position [("x", JNum 1%Z); ("y", JNum 0%Z); ("z", JNum 2%Z)] in
  let resp0 := mkInst TeleportResponse [("rid", JStr "0")] in
  let resp1 := mkInst TeleportResponse [("rid", JStr "1")] in
  let w1 := run [Teleport "u2" P; Deliver resp1]
                (teleport "u1" P initial).2 in
  let w2 := run [Resume 1; Chat "bye"] (deliver resp0 w1).2 in
  (Queue_get 0 w2).1 = Returned (AnyMsg resp0) ∧
  _req_id_registry (Queue_get 0 w2).2 !! "0" = None.
Proof.
  intros P resp0 resp1 w1 w2.
  assert (inst_cls (new_TeleportRequest "u1" P) ∈ Outgoing) as Hcls
    by (unfold Outgoing; in_list).
  assert (has_rid (new_TeleportRequest "u1" P)) as Hhas
    by (unfold has_rid; simpl; by eexists).
  assert (∀ m, Deliver m ∈ [Teleport "u2" P; Deliver resp1] →
               get_rid m ≠ Some "0") as Hops1.
  { intros m Hin.
    apply elem_of_cons in Hin as [Hin|Hin]; [discriminate Hin|].
    apply elem_of_cons in Hin as [Hin|Hin].
    - injection Hin as ->. discriminate.
    - by apply elem_of_nil in Hin. }
  assert (Resume 0 ∉ [Resume 1; Chat "bye"]) as Hops2 by not_in_list.
  pose proof (response_removes_entry [] [Teleport "u2" P; Deliver resp1]
                [Resume 1; Chat "bye"] (new_TeleportRequest "u1" P) resp0
                initial w1 w2 "0" 0 eq_refl eq_refl eq_refl Hhas Hcls
                eq_refl Hops1 Hops2 eq_refl eq_refl) as H.
  exact (conj (proj1 (proj2 (proj2 (proj2 (proj2 H)))))
              (proj1 (proj2 (proj2 (proj2 (proj2 (proj2 H))))))).
Defined.




(** * Further properties of the facade and the correlator *)

Lemma dict_get_set_ne (k k' : string) (v : json) (d : list (string * json)) :
  k ≠ k' → dict_get k' (dict_set k v d) = dict_get k' d.
Proof.
  intros Hne. induction d as [|[k0 v0] d IH]; simpl.
  - by rewrite decide_False.
  - destruct (decide (k0 = k)) as [->|Hne0]; simpl.
    + by rewrite !decide_False.
    + by rewrite IH.
Qed.

Lemma dict_set_set (k : string) (v v' : json) (d : list (string * json)) :
  dict_set k v' (dict_set k v d) = dict_set k v' d.
Proof.
  induction d as [|[k0 v0] d IH]; simpl.
  - by rewrite decide_True.
  - destruct (decide (k0 = k)) as [->|Hne]; simpl.
    + by rewrite decide_True.
    + by rewrite decide_False, IH.
Qed.

Lemma run_cons (o : op) (ops : list op) (w : World) :
  run (o :: ops) w = run ops (step o w).
Proof. done. Qed.

Lemma step_one_way (o : op) (w : World) :
  is_one_way o = true →
  ∃ frame, frame_rid frame = None ∧ step o w = sent frame w.
Proof.
  destruct o as [m|u m|e [t|]|[[x y] z] f|icon|m tags|u dest| |req|m|q];
    try discriminate; intros _; eexists; (split; [|reflexivity]); reflexivity.
Qed.

Lemma step_correlated (o : op) (w : World) :
  is_correlated o = true →
  ∃ req', frame_rid (unstructure req') = Some (str (_req_id w)) ∧
          inst_cls req' ∈ Outgoing ∧ step o w = issued req' w.
Proof.
  destruct facade_requests_have_rid as (Hr1 & Hr2 & Hr3 & Hr4).
  assert (∀ req, has_rid req → inst_cls req ∈ Outgoing →
            ∃ req', frame_rid (unstructure req') = Some (str (_req_id w)) ∧
                    inst_cls req' ∈ Outgoing ∧
                    (do_req_resp req w).2 = issued req' w) as H.
  { intros req Hrid Hin.
    destruct (do_req_resp_issued_ex req w Hrid Hin) as (req' & Hset & Hin' & ->).
    exists req'. split; [by eapply frame_rid_stamped | done]. }
  destruct o as [m|u m|e t|d f|icon|m tags|u dest| |req|m|q];
    try discriminate; intros _.
  - apply H; [apply Hr1 | unfold Outgoing; in_list].
  - apply H; [apply Hr2 | unfold Outgoing; in_list].
  - apply H; [apply Hr3 | unfold Outgoing; in_list].
  - unfold step. simpl. rewrite (get_room_users_eq None).
    apply H; [apply Hr4 | apply GetRoomUsersRequest_Outgoing].
Qed.

Lemma sent_rids_issued (req' : AttrsInstance) (w : World) :
  frame_rid (unstructure req') = Some (str (_req_id w)) →
  sent_rids (issued req' w) = sent_rids w ++ [str (_req_id w)].
Proof. intros Hfr. unfold issued. by rewrite sent_rids_sent, Hfr. Qed.

(** X1.  A run that consists of one-way calls only ([chat],
    [send_whisper], [send_emote], [walk_to]) sends exactly one frame per
    call after the frames already sent, none of the new frames carries a
    correlation id, and the id counter, the registry and the queues are what
    they were before the run. *)
Theorem one_way_run (ops : list op) (w : World) :
  forallb is_one_way ops = true →
  ws w `prefix_of` ws (run ops w) ∧
  length (ws (run ops w)) = length (ws w) + length ops ∧
  sent_rids (run ops w) = sent_rids w ∧
  _req_id (run ops w) = _req_id w ∧
  _req_id_registry (run ops w) = _req_id_registry w ∧
  heap (run ops w) = heap w ∧
  next_loc (run ops w) = next_loc w.
Proof.
  revert w. induction ops as [|o ops IH]; intros w Hall.
  - simpl. repeat split; first [done | lia].
  - simpl in Hall. apply andb_prop in Hall as [Ho Hall].
    rewrite run_cons.
    destruct (step_one_way o w Ho) as (frame & Hnone & ->).
    destruct (IH (sent frame w) Hall) as (Hp & Hl & Hr & Hc & Hg & Hh & Hn).
    rewrite sent_rids_sent, Hnone, app_nil_r in Hr.
    repeat split; try done.
    + etrans; [|exact Hp]. by apply prefix_app_r.
    + rewrite Hl. simpl. rewrite length_app. simpl. lia.
Qed.

Lemma one_way_run_witness :
  length (ws (run [Chat "hi"; SendEmote "wave" None; WalkTo (1, 2, 3)%Z BackLeft;
                   SendWhisper "u1" "psst"] initial)) = 4 ∧
  _req_id_registry (run [Chat "hi"; SendEmote "wave" None;
                         WalkTo (1, 2, 3)%Z BackLeft;
                         SendWhisper "u1" "psst"] initial) = ∅.
Proof.
  pose proof (one_way_run [Chat "hi"; SendEmote "wave" None;
                           WalkTo (1, 2, 3)%Z BackLeft;
                           SendWhisper "u1" "psst"] initial eq_refl) as H.
  destruct H as (_ & Hl & _ & _ & Hg & _).
  exact (conj Hl Hg).
Defined.

(** X2.  Every facade call sends exactly one frame: after a run of facade
    calls the socket has seen as many new frames as there were calls. *)
Theorem facade_run_frames (ops : list op) (w : World) :
  forallb is_facade ops = true →
  length (ws (run ops w)) = length (ws w) + length ops.
Proof.
  revert w. induction ops as [|o ops IH]; intros w Hall.
  - simpl. by rewrite Nat.add_0_r.
  - simpl in Hall. apply andb_prop in Hall as [Ho Hall].
    rewrite run_cons, (IH _ Hall). simpl.
    apply orb_prop in Ho as [Ho|Ho].
    + destruct (step_one_way o w Ho) as (frame & _ & ->). simpl.
      rewrite length_app. simpl. lia.
    + destruct (step_correlated o w Ho) as (req & _ & _ & ->). simpl.
      rewrite length_app. simpl. lia.
Qed.

Lemma facade_run_frames_witness :
  length (ws (run [Chat "hi"; GetRoomUsers; SetIndicator None;
                   SendEmote "wave" (Some "u2")] initial)) = 4.
Proof.
  exact (facade_run_frames [Chat "hi"; GetRoomUsers; SetIndicator None;
                            SendEmote "wave" (Some "u2")] initial eq_refl).
Defined.

Lemma deliver_frame (m : AttrsInstance) (w : World) :
  ws (deliver m w).2 = ws w ∧ _req_id (deliver m w).2 = _req_id w.
Proof.
  unfold deliver. destruct (get_rid m) as [rid|]; [|done].
  destruct (_req_id_registry w !! rid) as [q|]; [|done].
  unfold bind, put_nowait. destruct (heap w !! q) as [qu|]; [|done].
  by destruct (full qu).
Qed.

Lemma Queue_get_frame (q : loc) (w : World) :
  ws (Queue_get q w).2 = ws w ∧ _req_id (Queue_get q w).2 = _req_id w.
Proof.
  by destruct (Queue_get_cases q w) as [(n & v & rest & _ & ->)|[_ ->]].
Qed.

Lemma step_req_id (o : op) (w : World) :
  _req_id (step o w)
    = (_req_id w + if draws_id o then 1 else 0)%N.
Proof.
  destruct (draws_id o) eqn:Hd.
  - assert (_req_id (step o w) = N.succ (_req_id w)) as H.
    { destruct (is_correlated o) eqn:Hc.
      - by destruct (step_correlated o w Hc) as (req & _ & _ & ->).
      - destruct o; try discriminate. unfold step. simpl.
        by destruct (do_req_resp_cases req w)
          as [[_ ->]|[(req' & _ & _ & ->)|(req' & _ & _ & ->)]]. }
    rewrite H. lia.
  - destruct o as [m|u m|e t|d f|icon|m tags|u dest| |req|m|q];
      try discriminate.
    + destruct (step_one_way (Chat m) w eq_refl) as (frame & _ & ->).
      simpl. lia.
    + destruct (step_one_way (SendWhisper u m) w eq_refl) as (frame & _ & ->).
      simpl. lia.
    + destruct (step_one_way (SendEmote e t) w eq_refl) as (frame & _ & ->).
      simpl. lia.
    + destruct (step_one_way (WalkTo d f) w eq_refl) as (frame & _ & ->).
      simpl. lia.
    + unfold step. simpl. rewrite none_of_world.
      destruct (deliver_frame m w) as [_ ->]. lia.
    + unfold step. simpl. destruct (Queue_get_frame q w) as [_ ->]. lia.
Qed.

(** X3.  The counter counts the calls that draw an id: after any run its
    value has grown by the number of correlated facade calls and direct
    [do_req_resp] calls in the run, and by nothing else. *)
Theorem counter_counts_draws (ops : list op) (w : World) :
  _req_id (run ops w) = (_req_id w + N.of_nat (count_ops draws_id ops))%N.
Proof.
  revert w. induction ops as [|o ops IH]; intros w.
  - simpl. lia.
  - rewrite run_cons, IH, step_req_id. simpl. destruct (draws_id o); lia.
Qed.

Lemma step_ws (o : op) (w : World) :
  ws (step o w) = ws w ∨ ∃ frame, ws (step o w) = ws w ++ [frame].
Proof.
  destruct (step_cases o w)
    as [(frame & _ & ->)|[(req' & _ & ->)|[->|[->|[(m & _ & ->)|(q & _ & ->)]]]]].
  - right. by eexists.
  - right. by eexists.
  - by left.
  - by left.
  - left. apply deliver_frame.
  - left. apply Queue_get_frame.
Qed.

(** X4.  The socket log is append-only: whatever the run, the frames sent
    before it are a prefix of the frames sent after it, and a run of [n]
    operations adds at most [n] frames. *)
Theorem socket_append_only (ops : list op) (w : World) :
  ws w `prefix_of` ws (run ops w) ∧
  (length (ws (run ops w)) ≤ length (ws w) + length ops)%nat.
Proof.
  revert w. induction ops as [|o ops IH]; intros w.
  - simpl. split; [done | lia].
  - rewrite run_cons. destruct (IH (step o w)) as [Hp Hl].
    destruct (step_ws o w) as [E|[frame E]]; rewrite E in Hp, Hl.
    + split; [done | simpl; lia].
    + split.
      * etrans; [|exact Hp]. by apply prefix_app_r.
      * rewrite length_app in Hl. simpl in *. lia.
Qed.


Lemma increasing_step (o : op) (w : World) : increasing w → increasing (step o w).
Proof.
  intros (ns & Hs & Hsorted & Hlt).
  assert (∀ w', sent_rids w' = sent_rids w → (_req_id w ≤ _req_id w')%N →
                increasing w') as Hsame.
  { intros w' E Hle. exists ns. rewrite E. split; [done|]. split; [done|].
    eapply Forall_impl; [exact Hlt|]. simpl. intros n Hn. lia. }
  destruct (step_cases o w)
    as [(frame & Hnone & ->)|[(req' & Hfr & ->)|[->|[->|[(m & _ & ->)|(q & _ & ->)]]]]].
  - apply Hsame; [|done]. by rewrite sent_rids_sent, Hnone, app_nil_r.
  - exists (ns ++ [_req_id w]).
    rewrite (sent_rids_issued _ _ Hfr), fmap_app, Hs.
    split; [done|]. split.
    + apply StronglySorted_app_2; [|done|repeat constructor].
      intros n1 n2 Hn1 ->%list_elem_of_singleton.
      by apply (proj1 (Forall_forall _ _) Hlt).
    + apply Forall_app. split.
      * eapply Forall_impl; [exact Hlt|]. simpl. intros n Hn. lia.
      * repeat constructor. simpl. lia.
  - apply Hsame; [done | simpl; lia].
  - apply Hsame; [done | simpl; lia].
  - destruct (deliver_frame m w) as [Hw Hc].
    apply Hsame; [unfold sent_rids; by rewrite Hw | lia].
  - destruct (Queue_get_frame q w) as [Hw Hc].
    apply Hsame; [unfold sent_rids; by rewrite Hw | lia].
Qed.

(** X5.  In every world reached from the initial state the correlation ids
    on the socket, read in the order sent, are the decimals of a strictly
    increasing sequence of counter values, each below the current counter:
    a later request never carries an earlier or equal id. *)
Theorem ids_increasing (ops : list op) :
  ∃ ns, sent_rids (run ops initial) = str <$> ns ∧
        StronglySorted N.lt ns ∧
        Forall (λ n, (n < _req_id (run ops initial))%N) ns.
Proof.
  assert (∀ w, increasing w → increasing (run ops w)) as H.
  { induction ops as [|o ops IH]; intros w Hw; [done|].
    rewrite run_cons. by apply IH, increasing_step. }
  apply (H initial). exists []. repeat split; constructor.
Qed.

Lemma ids_from_S (c : N) (k : nat) :
  ids_from c (S k) = str c :: ids_from (N.succ c) k.
Proof.
  unfold ids_from. simpl. rewrite N.add_0_r. f_equal.
  rewrite <- fmap_S_seq, <- list_fmap_compose.
  apply list_fmap_ext. intros i x _. simpl. f_equal. lia.
Qed.

(** X6.  In a run of facade calls the correlated ones get consecutive ids
    in call order, [get_room_users] and the [do_req_resp] callers alike:
    the ids put on the socket by the run are the decimals of the counter's
    start value, the next one, and so on, one per correlated call.  From
    the initial state they are "0", "1", "2", ... *)
Theorem facade_ids_consecutive (ops : list op) (w : World) :
  forallb is_facade ops = true →
  sent_rids (run ops w)
    = sent_rids w ++ ids_from (_req_id w) (count_ops is_correlated ops).
Proof.
  revert w. induction ops as [|o ops IH]; intros w Hall.
  - simpl. by rewrite app_nil_r.
  - simpl in Hall. apply andb_prop in Hall as [Ho Hall].
    rewrite run_cons, (IH _ Hall). simpl.
    destruct (is_correlated o) eqn:Hc.
    + destruct (step_correlated o w Hc) as (req & Hfr & _ & ->).
      rewrite (sent_rids_issued _ _ Hfr), ids_from_S, <- app_assoc. done.
    + unfold is_facade in Ho. rewrite Hc, orb_false_r in Ho.
      destruct (step_one_way o w Ho) as (frame & Hnone & ->).
      by rewrite sent_rids_sent, Hnone, app_nil_r.
Qed.

Lemma facade_ids_consecutive_witness :
  sent_rids (run [Teleport "u1" (mkInst Position []); Chat "hi"; GetRoomUsers;
                  SetIndicator None] initial) = ["0"; "1"; "2"].
Proof.
  exact (facade_ids_consecutive
           [Teleport "u1" (mkInst Position []); Chat "hi"; GetRoomUsers;
            SetIndicator None] initial eq_refl).
Defined.

Lemma registry_registered (w : World) :
  wf w →
  _req_id_registry w ⊆ _req_id_registry (registered w) ∧
  size (_req_id_registry (registered w)) = S (size (_req_id_registry w)).
Proof.
  intros Hwf. pose proof (fresh_id_unregistered w Hwf) as Hfresh. simpl.
  split; [by apply insert_subseteq | by apply map_size_insert_None].
Qed.

Lemma step_registry (o : op) (w : World) :
  wf w → is_Deliver o = false →
  _req_id_registry w ⊆ _req_id_registry (step o w) ∧
  size (_req_id_registry (step o w))
    = size (_req_id_registry w) + (if registers o then 1 else 0) ∧
  ∀ r, r ∈ sent_rids (step o w) →
       r ∈ sent_rids w ∨ is_Some (_req_id_registry (step o w) !! r).
Proof.
  intros Hwf Hnd.
  destruct (registry_registered w Hwf) as [Hsub Hsize].
  assert (∀ req', frame_rid (unstructure req') = Some (str (_req_id w)) →
            (_req_id_registry w ⊆ _req_id_registry (issued req' w) ∧
             size (_req_id_registry (issued req' w))
               = size (_req_id_registry w) + 1 ∧
             ∀ r, r ∈ sent_rids (issued req' w) →
                  r ∈ sent_rids w ∨
                  is_Some (_req_id_registry (issued req' w) !! r)))
    as Hissued.
  { intros req' Hfr.
    split; [done|]. split; [simpl in *; lia|].
    intros r. rewrite (sent_rids_issued _ _ Hfr).
    intros [Hin| ->%list_elem_of_singleton]%elem_of_app; [by left|].
    right. simpl. rewrite lookup_insert_eq. by eexists. }
  assert (∀ w', _req_id_registry w' = _req_id_registry w →
                sent_rids w' = sent_rids w →
                (_req_id_registry w ⊆ _req_id_registry w' ∧
                 size (_req_id_registry w') = size (_req_id_registry w) + 0 ∧
                 ∀ r, r ∈ sent_rids w' →
                      r ∈ sent_rids w ∨ is_Some (_req_id_registry w' !! r)))
    as Hsame.
  { intros w' Er Es. rewrite Er, Es. split; [done|]. split; [lia|].
    intros r Hr. by left. }
  destruct o as [m|u m|e t|d f|icon|m tags|u dest| |req|m|q];
    try discriminate.
  - destruct (step_one_way (Chat m) w eq_refl) as (frame & Hn & ->).
    apply Hsame; [done|]. by rewrite sent_rids_sent, Hn, app_nil_r.
  - destruct (step_one_way (SendWhisper u m) w eq_refl) as (frame & Hn & ->).
    apply Hsame; [done|]. by rewrite sent_rids_sent, Hn, app_nil_r.
  - destruct (step_one_way (SendEmote e t) w eq_refl) as (frame & Hn & ->).
    apply Hsame; [done|]. by rewrite sent_rids_sent, Hn, app_nil_r.
  - destruct (step_one_way (WalkTo d f) w eq_refl) as (frame & Hn & ->).
    apply Hsame; [done|]. by rewrite sent_rids_sent, Hn, app_nil_r.
  - destruct (step_correlated (SetIndicator icon) w eq_refl)
      as (req' & Hfr & _ & ->). by apply Hissued.
  - destruct (step_correlated (SendChannel m tags) w eq_refl)
      as (req' & Hfr & _ & ->). by apply Hissued.
  - destruct (step_correlated (Teleport u dest) w eq_refl)
      as (req' & Hfr & _ & ->). by apply Hissued.
  - destruct (step_correlated GetRoomUsers w eq_refl)
      as (req' & Hfr & _ & ->). by apply Hissued.
  - unfold step. simpl.
    destruct (do_req_resp_cases req w)
      as [[Hnone ->]|[(req' & Hset & _ & ->)|(req' & Hset & _ & ->)]].
    + rewrite bool_decide_eq_false_2; [|by eapply set_rid_None].
      by apply Hsame.
    + destruct (set_rid_Some _ _ _ Hset) as (Hhas & _).
      rewrite bool_decide_eq_true_2; [|done].
      apply Hissued. by eapply frame_rid_stamped.
    + destruct (set_rid_Some _ _ _ Hset) as (Hhas & _).
      rewrite bool_decide_eq_true_2; [|done].
      split; [done|]. split; [simpl in *; lia|]. intros r Hr. by left.
  - unfold step. simpl. apply Hsame; [apply Queue_get_registry|].
    unfold sent_rids. by destruct (Queue_get_frame q w) as [-> _].
Qed.

(** X7.  Nothing in the module removes a registry entry.  In a run without
    deliveries that starts in a reachable world, every entry that was in
    the registry is still there, bound to the same queue, and the registry
    has gained exactly one entry per call that registers: a correlated
    facade call, or a direct [do_req_resp] on a request with a [rid]
    attribute, also when its encoding then fails. *)
Theorem registry_only_grows (ops0 ops : list op) :
  forallb (λ o, negb (is_Deliver o)) ops = true →
  _req_id_registry (run ops0 initial)
    ⊆ _req_id_registry (run ops (run ops0 initial)) ∧
  size (_req_id_registry (run ops (run ops0 initial)))
    = size (_req_id_registry (run ops0 initial)) + count_ops registers ops.
Proof.
  assert (wf (run ops0 initial)) as Hwf by apply wf_run, wf_initial.
  revert Hwf. generalize (run ops0 initial) as w.
  induction ops as [|o ops IH]; intros w Hwf Hall.
  - simpl. split; [done | lia].
  - simpl in Hall. apply andb_prop in Hall as [Ho Hall].
    apply negb_true_iff in Ho.
    destruct (step_registry o w Hwf Ho) as (Hsub & Hsize & _).
    rewrite run_cons.
    destruct (IH (step o w) (wf_step o w Hwf) Hall) as [Hsub' Hsize'].
    split; [by etrans|]. rewrite Hsize', Hsize. simpl.
    destruct (registers o); lia.
Qed.

Lemma registry_only_grows_witness :
  size (_req_id_registry
          (run [Chat "hi"; DoReqResp (mkInst Error [("rid", JNull)]);
                DoReqResp (mkInst ChatEvent []); GetRoomUsers; Resume 0]
               (run [SetIndicator None] initial))) = 3.
Proof.
  exact (proj2 (registry_only_grows
                  [SetIndicator None]
                  [Chat "hi"; DoReqResp (mkInst Error [("rid", JNull)]);
                   DoReqResp (mkInst ChatEvent []); GetRoomUsers; Resume 0]
                  eq_refl)).
Defined.

(** X8.  No id is on the socket without its slot: in a run from the initial
    state without deliveries, every correlation id that a frame carries is a
    key of the registry, so a response can find its queue from the moment
    the request is sent. *)
Theorem sent_ids_registered (ops : list op) (r : string) :
  forallb (λ o, negb (is_Deliver o)) ops = true →
  r ∈ sent_rids (run ops initial) →
  is_Some (_req_id_registry (run ops initial) !! r).
Proof.
  assert (∀ w, wf w →
            (∀ r, r ∈ sent_rids w → is_Some (_req_id_registry w !! r)) →
            forallb (λ o, negb (is_Deliver o)) ops = true →
            ∀ r, r ∈ sent_rids (run ops w) →
                 is_Some (_req_id_registry (run ops w) !! r)) as H.
  { induction ops as [|o ops IH]; intros w Hwf Hw Hall; [done|].
    simpl in Hall. apply andb_prop in Hall as [Ho Hall].
    apply negb_true_iff in Ho. rewrite run_cons.
    destruct (step_registry o w Hwf Ho) as (Hsub & _ & Hnew).
    apply IH; [by apply wf_step| |done].
    intros r' Hr'. destruct (Hnew r' Hr') as [Hold|Hreg]; [|done].
    destruct (Hw r' Hold) as [q Hq]. exists q.
    by apply (lookup_weaken _ _ _ _ Hq). }
  intros Hall. apply (H initial wf_initial); [|done].
  intros r' Hr'. by apply elem_of_nil in Hr'.
Qed.

Lemma sent_ids_registered_witness :
  is_Some (_req_id_registry
             (run [Teleport "u1" (mkInst Position []); Chat "hi"; GetRoomUsers]
                  initial) !! "1").
Proof.
  apply (sent_ids_registered
           [Teleport "u1" (mkInst Position []); Chat "hi"; GetRoomUsers] "1"
           eq_refl).
  vm_compute. in_list.
Defined.

(** X9.  When [converter.dumps] raises on a request that line 164 could
    stamp, [do_req_resp] has already drawn the id and stored the queue: the
    call raises, nothing is sent, the counter has advanced and the registry
    keeps an entry, with an empty queue, for an id that no frame carries. *)
Theorem failed_encode_leaks (req req' : AttrsInstance) (w : World) :
  set_rid req (str (_req_id w)) = Some req' →
  dumps req' Outgoing = None →
  (do_req_resp req w).1 = Raised NotInUnion ∧
  ws (do_req_resp req w).2 = ws w ∧
  _req_id (do_req_resp req w).2 = N.succ (_req_id w) ∧
  _req_id_registry (do_req_resp req w).2 !! str (_req_id w)
    = Some (next_loc w) ∧
  heap (do_req_resp req w).2 !! next_loc w = Some (mkQueue 1 []) ∧
  effects (do_req_resp req w).2
    = effects w ++ [EvNext (_req_id w);
                    EvRegister (str (_req_id w)) (next_loc w)].
Proof.
  intros Hset Hd. unfold do_req_resp, bind, setattr_rid, converter_dumps.
  simpl. rewrite Hset. simpl. rewrite Hd. simpl.
  rewrite !lookup_insert_eq, <- app_assoc. by repeat split.
Qed.

Lemma failed_encode_leaks_witness :
  let resp := mkInst TeleportResponse [("rid", JStr "9")] in
  (do_req_resp resp initial).1 = Raised NotInUnion ∧
  ws (do_req_resp resp initial).2 = [] ∧
  _req_id_registry (do_req_resp resp initial).2 !! "0" = Some 0.
Proof.
  intros resp.
  pose proof (failed_encode_leaks resp
                (mkInst TeleportResponse [("rid", JStr "0")]) initial
                eq_refl eq_refl) as (H1 & H2 & _ & H3 & _).
  exact (conj H1 (conj H2 H3)).
Defined.

(** X10.  No cross-talk between pending requests: in a reachable world,
    for two different ids of the registry, putting a value into the queue
    of the second succeeds, the call parked on that queue returns the value,
    and the call parked on the queue of the first stays parked with the
    world unchanged. *)
Theorem pending_requests_isolated (ops : list op) (r1 r2 : string)
    (q1 q2 : loc) (v : Any) :
  _req_id_registry (run ops initial) !! r1 = Some q1 →
  _req_id_registry (run ops initial) !! r2 = Some q2 →
  r1 ≠ r2 →
  (put_nowait q2 v (run ops initial)).1 = Returned tt ∧
  (Queue_get q2 (put_nowait q2 v (run ops initial)).2).1 = Returned v ∧
  Queue_get q1 (put_nowait q2 v (run ops initial)).2
    = (Suspended q1, (put_nowait q2 v (run ops initial)).2) ∧
  _req_id_registry (put_nowait q2 v (run ops initial)).2
    = _req_id_registry (run ops initial).
Proof.
  assert (wf (run ops initial)) as Hwf by apply wf_run, wf_initial.
  generalize dependent (run ops initial). intros w Hwf H1 H2 Hne.
  destruct (wf_slots w Hwf _ _ H1) as [_ Hh1].
  destruct (wf_slots w Hwf _ _ H2) as [_ Hh2].
  assert (q2 ≠ q1) as Hq.
  { intros ->. apply Hne. by apply (wf_inj w Hwf r1 r2 q1). }
  unfold put_nowait. rewrite Hh2. simpl.
  unfold Queue_get. simpl.
  rewrite lookup_insert_eq, lookup_insert_ne, Hh1; done.
Qed.

Lemma pending_requests_isolated_witness :
  let w := run [Teleport "u1" (mkInst Position []); GetRoomUsers] initial in
  (Queue_get 1 (put_nowait 1 (AnyPairs []) w).2).1 = Returned (AnyPairs []) ∧
  (Queue_get 0 (put_nowait 1 (AnyPairs []) w).2).1 = Suspended 0.
Proof.
  intros w.
  assert ("0" ≠ "1") as Hne by discriminate.
  pose proof (pending_requests_isolated
                [Teleport "u1" (mkInst Position []); GetRoomUsers]
                "0" "1" 0 1 (AnyPairs []) eq_refl eq_refl Hne)
    as (_ & H2 & H3 & _).
  split; [exact H2|]. exact (f_equal fst H3).
Defined.

(** X11.  Stamping changes the correlation id and nothing else.  The frame
    that [do_req_resp] sends for a request of the Outgoing union is tagged
    with the request's class, carries the new id, and agrees with the
    request on every other attribute.  A request that already carries an
    id, from an earlier call, is sent like one that carries none: the old id
    leaves no trace. *)
Theorem stamp_changes_only_rid (req req_old : AttrsInstance) (old : string)
    (w : World) :
  inst_cls req ∈ Outgoing →
  set_rid req old = Some req_old →
  (∃ members,
     ws (do_req_resp req w).2 = ws w ++ [JObj members] ∧
     dict_get "_type" members = Some (JStr (cls_name (inst_cls req))) ∧
     dict_get "rid" members = Some (JStr (str (_req_id w))) ∧
     ∀ k, k ≠ "_type" → k ≠ "rid" →
          dict_get k members = dict_get k (inst_attrs req)) ∧
  do_req_resp req_old w = do_req_resp req w.
Proof.
  intros Hcls Hold.
  destruct (set_rid_Some _ _ _ Hold) as (Hhas & Hcls_old & Hattrs_old & _).
  destruct (do_req_resp_issued_ex req w Hhas Hcls) as (req' & Hset & _ & E).
  destruct (set_rid_Some _ _ _ Hset) as (_ & Hcls' & Hattrs' & _).
  split.
  - rewrite E. eexists. split; [reflexivity|].
    split; [simpl; by rewrite Hcls'|]. split.
    + simpl. by rewrite Hattrs', dict_get_set_eq.
    + intros k Ht Hr. simpl. rewrite decide_False; [|done].
      by rewrite Hattrs', dict_get_set_ne.
  - rewrite E. apply do_req_resp_issued; [|by rewrite Hcls_old].
    unfold set_rid. rewrite Hattrs_old, dict_get_set_eq, dict_set_set, Hcls_old.
    unfold set_rid in Hset. destruct Hhas as [j Hj]. by rewrite Hj in Hset.
Qed.

Lemma stamp_changes_only_rid_witness :
  do_req_resp (mkInst IndicatorRequest [("icon", JStr "gear"); ("rid", JStr "7")])
    initial
    = do_req_resp (new_IndicatorRequest (Some "gear")) initial.
Proof.
  assert (inst_cls (new_IndicatorRequest (Some "gear")) ∈ Outgoing) as Hcls
    by (unfold Outgoing; in_list).
  exact (proj2 (stamp_changes_only_rid (new_IndicatorRequest (Some "gear"))
                  (mkInst IndicatorRequest
                     [("icon", JStr "gear"); ("rid", JStr "7")])
                  "7" initial Hcls eq_refl)).
Defined.

Lemma no_Deliver_in (ops : list op) (m : AttrsInstance) :
  forallb (λ o, negb (is_Deliver o)) ops = true → Deliver m ∉ ops.
Proof.
  induction ops as [|o ops IH]; intros Hall Hin.
  - by apply elem_of_nil in Hin.
  - simpl in Hall. apply andb_prop in Hall as [Ho Hall].
    apply elem_of_cons in Hin as [<-|Hin]; [discriminate Ho|]. by apply IH.
Qed.

(** X12.  There is no timeout.  A request that is pending in a reachable
    world stays pending through any run without deliveries: its entry is
    still in the registry, and resuming its caller after the run parks it
    again and changes nothing, however many calls, resumes or failed
    requests the run contains. *)
Theorem no_timeout (ops0 ops : list op) (rid : string) (q : loc) :
  _req_id_registry (run ops0 initial) !! rid = Some q →
  forallb (λ o, negb (is_Deliver o)) ops = true →
  _req_id_registry (run ops (run ops0 initial)) !! rid = Some q ∧
  Queue_get q (run ops (run ops0 initial))
    = (Suspended q, run ops (run ops0 initial)).
Proof.
  intros Hreg Hall.
  assert (wf (run ops0 initial)) as Hwf by apply wf_run, wf_initial.
  assert (pending rid q (run ops (run ops0 initial))) as Hp.
  { apply pending_run; [done| |].
    - split; [done|]. by destruct (wf_slots _ Hwf _ _ Hreg).
    - intros m Hin. by destruct (no_Deliver_in ops m Hall). }
  split; [apply Hp | by apply Queue_get_pending with rid].
Qed.

Lemma no_timeout_witness :
  let w := run [Chat "hi"; Resume 0; GetRoomUsers; Resume 0]
               (run [Teleport "u1" (mkInst Position [])] initial) in
  Queue_get 0 w = (Suspended 0, w).
Proof.
  intros w.
  exact (proj2 (no_timeout [Teleport "u1" (mkInst Position [])]
                  [Chat "hi"; Resume 0; GetRoomUsers; Resume 0] "0" 0
                  eq_refl eq_refl)).
Defined.

(** X13.  A request without a [rid] attribute cannot be stamped:
    [do_req_resp] raises [AttributeError] at line 164, after the id was
    drawn and before the queue is created.  The id is spent, and the
    registry, the queues and the socket are what they were. *)
Theorem unstampable_request_raises (req : AttrsInstance) (w : World) :
  dict_get "rid" (inst_attrs req) = None →
  (do_req_resp req w).1 = Raised AttributeError ∧
  _req_id (do_req_resp req w).2 = N.succ (_req_id w) ∧
  _req_id_registry (do_req_resp req w).2 = _req_id_registry w ∧
  heap (do_req_resp req w).2 = heap w ∧
  next_loc (do_req_resp req w).2 = next_loc w ∧
  ws (do_req_resp req w).2 = ws w ∧
  effects (do_req_resp req w).2 = effects w ++ [EvNext (_req_id w)].
Proof.
  intros Hnone. unfold do_req_resp, bind, setattr_rid, set_rid. simpl.
  by rewrite Hnone.
Qed.

Lemma unstampable_request_raises_witness :
  let ev := mkInst ChatEvent [("message", JStr "hello")] in
  (do_req_resp ev initial).1 = Raised AttributeError ∧
  _req_id (do_req_resp ev initial).2 = 1%N ∧
  _req_id_registry (do_req_resp ev initial).2 = ∅.
Proof.
  intros ev.
  pose proof (unstampable_request_raises ev initial eq_refl)
    as (H1 & H2 & H3 & _).
  exact (conj H1 (conj H2 H3)).
Defined.
